(** * The event-delivery trigger of vanus (internal/trigger/trigger/trigger.go)

    A shallow embedding of the [Trigger] of [trigger.go]: its construction,
    the intake call [EventArrived], the filter and send workers with the
    retry loop, the idle watcher and the [Start]/[Stop] control surface.

    Sequential code ([retrySendEvent], the bodies of the worker loops, the
    watcher tick) is written as functions.  The goroutines are put together
    in a labelled transition system ([step]) whose labels name the goroutine
    that moves and carry what the environment decides (the sink's replies,
    the clock, the outcome of building the sink client). *)

From stdpp Require Import base list strings.
From Stdlib Require Import ZArith Lia.

Local Open Scope Z_scope.

(** ** Time *)

(** [time.Duration] is a count of nanoseconds in an [int64]; [time.Time] is
    an instant, here a count of nanoseconds on one clock. *)
Definition Duration := Z.
Definition Time := Z.

Definition maxDuration : Duration := 2 ^ 63 - 1.
Definition minDuration : Duration := - 2 ^ 63.

Definition Millisecond : Duration := 1000000.
Definition Second : Duration := 1000 * Millisecond.

(** [t.Sub(u)]: the duration [t - u], saturated to the range of [Duration]
    as the Go library documents it. *)
Definition Sub (t u : Time) : Duration :=
  Z.max minDuration (Z.min maxDuration (t - u)).

(** The time spent in a blocking call of nominal length [d]: a call does not
    move the clock backwards ([time.Sleep] returns at once for [d <= 0]). *)
Definition elapse (now : Time) (d : Duration) : Time := now + Z.max 0 d.

(** ** Contexts *)

(** A [context.Context] as the trigger uses it: the instant at which its
    cancel function is called ([None]: never) and its deadline, if any.
    The cancellation instant is fixed by the environment. *)
Record Context := mkContext {
  ctx_cancel : option Time;
  ctx_deadline : option Time
}.

Definition Background : Context := mkContext None None.

Definition reached (o : option Time) (now : Time) : bool :=
  match o with
  | Some t => t <=? now
  | None => false
  end.

(** [<-ctx.Done()] is ready at [now]. *)
Definition Done (c : Context) (now : Time) : bool :=
  reached (ctx_cancel c) now || reached (ctx_deadline c) now.

(** [context.WithTimeout(parent, d)] called at [now]: the child is cancelled
    with its parent and carries the earlier of the parent's deadline and
    [now + d]. *)
Definition WithTimeout (parent : Context) (d : Duration) (now : Time) : Context :=
  mkContext (ctx_cancel parent)
            (Some (match ctx_deadline parent with
                   | Some p => Z.min p (now + d)
                   | None => now + d
                   end)).

(** ** Events, results, observations *)

(** The payload of a [ce.Event] is opaque to the trigger. *)
Definition CeEvent := string.

(** [info.OffsetInfo]: the position of an event in its source sequence. *)
Definition OffsetInfo := Z.

(** [info.EventRecord] *)
Record EventRecord := mkEventRecord {
  Event : CeEvent;
  OffsetInfo_of : OffsetInfo
}.

(** Modelled from the spec: the result of [ceClient.Send] and its
    classification by [ce.IsACK] as an acknowledgment or a rejection.  Both
    come from the cloudevents SDK, which is not among the sources; there the
    nil result is an acknowledgment. *)
Inductive Result :=
| ResultNil
| ResultACK
| ResultNACK
| ResultUndelivered (msg : string).

Definition IsACK (r : Result) : bool :=
  match r with
  | ResultNil | ResultACK => true
  | ResultNACK | ResultUndelivered _ => false
  end.

(** [err != nil] *)
Definition notNil (r : Result) : bool :=
  match r with
  | ResultNil => false
  | _ => true
  end.

(** The three places that commit a position: the filter worker on a failed
    predicate, the send worker after [retrySendEvent] returned nil, and the
    send worker after it returned an error. *)
Inductive CommitPath := FilterReject | SendSuccess | RetriesExhausted.

(** What the trigger does to its collaborators, in the order it does it. *)
Inductive Obs :=
| ObsSend (now : Time) (c : Context) (e : CeEvent)   (* ceClient.Send(timeout, *e) *)
| ObsSleep (now : Time) (d : Duration)               (* time.Sleep(d) *)
| ObsDebug (msg : string) (retryTimes : Z)           (* log.Debug *)
| ObsError (msg : string) (err : Result) (ev : EventRecord) (* log.Error *)
| ObsInfo (msg : string)                             (* log.Info *)
| ObsEnqueue (ev : EventRecord)                      (* t.eventCh <- event *)
| ObsReceive (o : OffsetInfo)                        (* offsetManager.EventReceive *)
| ObsCommit (o : OffsetInfo) (p : CommitPath).       (* offsetManager.EventCommit *)

(** The sink: what [Send] answers to a call made at [now] under context [c],
    and how long the call takes. *)
Definition SinkClient := Time -> Context -> CeEvent -> Result * Duration.

(** ** Configuration *)

(** The fields of [Config] that [trigger.go] reads. *)
Record Config := mkConfig {
  FilterProcessSize : Z;
  SendProcessSize : Z;
  BufferSize : Z;
  MaxRetryTimes : Z;
  RetryPeriod : Duration;
  SendTimeOut : Duration
}.

(** [Config{}]: every field at its zero value. *)
Definition emptyConfig : Config := mkConfig 0 0 0 0 0 0.

(** ** The retry loop *)

Section Retry.
Variable config : Config.
Variable ceClient : SinkClient.
Variable ctx : Context.
Variable e : CeEvent.

(** [doFunc]: one attempt under [WithTimeout(ctx, SendTimeOut)]. *)
Definition doFunc (now : Time) : Result * Time * list Obs :=
  let timeout := WithTimeout ctx (SendTimeOut config) now in
  let '(r, d) := ceClient now timeout e in
  (r, elapse now d, [ObsSend now timeout e]).

(** The [for retryTimes < t.config.MaxRetryTimes] loop.  [fuel] bounds the
    recursion; [retry_loop_fuel] shows that [retrySendEvent] always leaves
    the loop by its condition or by the [return nil]. *)
Fixpoint retry_loop (fuel : nat) (retryTimes : Z) (err : Result)
    (now : Time) (tr : list Obs) : Result * Time * list Obs :=
  match fuel with
  | O => (err, now, tr)
  | S fuel =>
    if retryTimes <? MaxRetryTimes config then
      let retryTimes := retryTimes + 1 in
      let '(err, now, o) := doFunc now in
      if negb (IsACK err) then
        retry_loop fuel retryTimes err
          (elapse now (RetryPeriod config))
          (tr ++ o ++ [ObsDebug "process event error" retryTimes;
                       ObsSleep now (RetryPeriod config)])
      else
        (ResultNil, now, tr ++ o ++ [ObsDebug "send ce event success" retryTimes])
    else (err, now, tr)
  end.

Definition retrySendEvent (now : Time) : Result * Time * list Obs :=
  retry_loop (Z.to_nat (MaxRetryTimes config)) 0 ResultNil now [].
End Retry.

(** Counting in a trace. *)
Definition isSend (o : Obs) : bool := match o with ObsSend _ _ _ => true | _ => false end.
Definition isSleep (o : Obs) : bool := match o with ObsSleep _ _ => true | _ => false end.

Definition count (f : Obs → bool) (tr : list Obs) : nat := length (List.filter f tr).

Definition sends (tr : list Obs) : nat := count isSend tr.
Definition sleeps (tr : list Obs) : nat := count isSleep tr.

(** ** Outcomes of an operation *)

(** An operation returns, cannot proceed in this state ([Blocked]), or
    panics. *)
Inductive Outcome (A : Type) :=
| Ok (a : A)
| Blocked
| Panic (msg : string).
Arguments Ok {A} a.
Arguments Blocked {A}.
Arguments Panic {A} msg.

Definition obind {A B} (f : A → Outcome B) (m : Outcome A) : Outcome B :=
  match m with
  | Ok a => f a
  | Blocked => Blocked
  | Panic s => Panic s
  end.

#[global] Instance Outcome_ret : MRet Outcome := λ A a, Ok a.
#[global] Instance Outcome_bind : MBind Outcome := λ A B f m, obind f m.

(** ** Channels *)

(** [chan info.EventRecord] made with [make(chan info.EventRecord, n)]. *)
Record Chan := mkChan {
  buf : list EventRecord;
  cap : Z;
  closed : bool
}.

(** [make] panics on a negative size. *)
Definition make_chan (n : Z) : Outcome Chan :=
  if n <? 0 then Panic "makechan: size out of range" else Ok (mkChan [] n false).

(** [c <- ev] into the buffer. *)
Definition chan_send (c : Chan) (ev : EventRecord) : Outcome Chan :=
  if closed c then Panic "send on closed channel"
  else if Z.of_nat (length (buf c)) <? cap c
       then Ok (mkChan (buf c ++ [ev]) (cap c) (closed c))
       else Blocked.

(** [c <- ev] taken at once by a receiver that waits on [c]: a receiver
    waits only on an empty buffer.  This is the only way through a channel
    of capacity 0. *)
Definition chan_handoff (c : Chan) : Outcome unit :=
  if closed c then Panic "send on closed channel"
  else match buf c with
       | [] => Ok ()
       | _ :: _ => Blocked
       end.

(** [ev, ok := <-c] *)
Definition chan_recv (c : Chan) : Outcome (option EventRecord * Chan) :=
  match buf c with
  | ev :: rest => Ok (Some ev, mkChan rest (cap c) (closed c))
  | [] => if closed c then Ok (None, c) else Blocked
  end.

(** [close(c)] *)
Definition chan_close (c : Chan) : Outcome Chan :=
  if closed c then Panic "close of closed channel"
  else Ok (mkChan (buf c) (cap c) true).

(** ** The trigger *)

Inductive TriggerState :=
| TriggerCreated
| TriggerPending
| TriggerRunning
| TriggerSleep
| TriggerPaused
| TriggerStopped
| TriggerDestroyed.

Definition TriggerState_string (s : TriggerState) : string :=
  match s with
  | TriggerCreated => "created"
  | TriggerPending => "pending"
  | TriggerRunning => "running"
  | TriggerSleep => "sleep"
  | TriggerPaused => "paused"
  | TriggerStopped => "stopped"
  | TriggerDestroyed => "destroyed"
  end.

#[global] Instance TriggerState_eq_dec : EqDecision TriggerState.
Proof. solve_decision. Defined.

(** [filter.FilterEvent(t.filter, e)] is a pure predicate of the event. *)
Inductive FilterResult := PassFilter | FailFilter.

#[global] Instance FilterResult_eq_dec : EqDecision FilterResult.
Proof. solve_decision. Defined.

Definition Filter := CeEvent → FilterResult.

(** The fields of [Trigger].  [stop] is the cancel function of the scope
    made by the last [Start] ([None]: nil); [offsetManager] names the
    tracker, whose calls are recorded in the history of the system; the
    goroutines of [wg] are part of the system below. *)
Record Trigger := mkTrigger {
  ID : string;
  SubscriptionID : string;
  Target : string;
  SleepDuration : Duration;
  state : TriggerState;
  lastActive : Time;
  offsetManager : nat;
  stop : option nat;
  eventCh : Chan;
  sendCh : Chan;
  ceClient : option SinkClient;
  filter : Filter;
  config : Config
}.

Definition set_state (s : TriggerState) (t : Trigger) : Trigger :=
  mkTrigger (ID t) (SubscriptionID t) (Target t) (SleepDuration t) s
    (lastActive t) (offsetManager t) (stop t) (eventCh t) (sendCh t)
    (ceClient t) (filter t) (config t).

Definition set_eventCh (c : Chan) (t : Trigger) : Trigger :=
  mkTrigger (ID t) (SubscriptionID t) (Target t) (SleepDuration t) (state t)
    (lastActive t) (offsetManager t) (stop t) c (sendCh t)
    (ceClient t) (filter t) (config t).

Definition set_sendCh (c : Chan) (t : Trigger) : Trigger :=
  mkTrigger (ID t) (SubscriptionID t) (Target t) (SleepDuration t) (state t)
    (lastActive t) (offsetManager t) (stop t) (eventCh t) c
    (ceClient t) (filter t) (config t).

(** The assignments of [Start]: [t.ceClient], [t.stop], [t.state] and
    [t.lastActive]. *)
Definition set_started (cl : SinkClient) (k : nat) (now : Time) (t : Trigger) : Trigger :=
  mkTrigger (ID t) (SubscriptionID t) (Target t) (SleepDuration t) TriggerRunning
    now (offsetManager t) (Some k) (eventCh t) (sendCh t)
    (Some cl) (filter t) (config t).

(** [primitive.Subscription], as far as [NewTrigger] reads it. *)
Record Subscription (SubscriptionFilter : Type) := mkSubscription {
  sub_ID : string;
  sub_Sink : string;
  sub_Filters : list SubscriptionFilter
}.
Arguments sub_ID {_} _.
Arguments sub_Sink {_} _.
Arguments sub_Filters {_} _.

Section Construct.
(** [Config.initConfig] and [filter.GetFilter] are declared in files of
    the repository other than [trigger.go]. *)
Variable initConfig : Config → Config.
Variable SubscriptionFilter : Type.
Variable GetFilter : list SubscriptionFilter → Filter.

(** [NewTrigger(config, sub, offsetManager)]; the nil pointers are [None]
    and [id] is the string of [uuid.New()]. *)
Definition NewTrigger (id : string) (config : option Config)
    (sub : option (Subscription SubscriptionFilter)) (offsetManager : nat)
    : Outcome Trigger :=
  let config := match config with
                | None => emptyConfig
                | Some c => c
                end in
  let config := initConfig config in
  match sub with
  | None => Panic "nil pointer dereference"
  | Some sub =>
    eventCh ← make_chan (BufferSize config);
    sendCh ← make_chan (BufferSize config);
    Ok (mkTrigger id (sub_ID sub) (sub_Sink sub) (30 * Second) TriggerCreated
          0 offsetManager None eventCh sendCh None
          (GetFilter (sub_Filters sub)) config)
  end.
End Construct.

(** [GetState] *)
Definition GetState (t : Trigger) : TriggerState := state t.

(** One tick of [runSleepWatch], between [Lock] and [Unlock]. *)
Definition runSleepWatch_tick (now : Time) (t : Trigger) : Trigger :=
  if decide (state t = TriggerRunning) then
    if SleepDuration t <? Sub now (lastActive t)
    then set_state TriggerSleep t
    else set_state TriggerRunning t
  else t.

(** [ctx.Err()] *)
Inductive error := ErrNil | ErrCanceled | ErrDeadlineExceeded.

Definition Err (c : Context) (now : Time) : error :=
  match ctx_cancel c, ctx_deadline c with
  | Some tc, Some td =>
    if tc <=? now then (if (td <=? now) && (td <? tc) then ErrDeadlineExceeded else ErrCanceled)
    else if td <=? now then ErrDeadlineExceeded else ErrNil
  | Some tc, None => if tc <=? now then ErrCanceled else ErrNil
  | None, Some td => if td <=? now then ErrDeadlineExceeded else ErrNil
  | None, None => ErrNil
  end.

(** ** The goroutines *)

(** Where a filter worker stands in [runEventProcess]: in the [select], with
    an event just received, at [t.sendCh <- event], or returned. *)
Inductive FilterPC :=
| FIdle
| FGot (ev : EventRecord)
| FForward (ev : EventRecord)
| FExited.

(** Where a send worker stands in [runEventSend]: in the [select], with an
    event just received, back from [retrySendEvent] with its result, or
    returned. *)
Inductive SendPC :=
| SIdle
| SGot (ev : EventRecord)
| SRetried (ev : EventRecord) (err : Result)
| SExited.

(** The idle watcher [runSleepWatch]: in the [select], or returned. *)
Inductive WatchPC := WIdle | WExited.

(** The trigger and what runs around it.  Each [Start] makes a cancellation
    scope; [scopes] tells which are cancelled and every goroutine carries the
    index of the scope it was started with.  [arriving] holds the calls of
    [EventArrived] that have sent their event and not yet registered it;
    [stopping] counts the calls of [Stop] that wait in [wg.Wait].  [hist] is
    the history of observations. *)
Record Sys := mkSys {
  trigger : Trigger;
  scopes : list bool;
  filterWorkers : list (nat * FilterPC);
  sendWorkers : list (nat * SendPC);
  watchers : list (nat * WatchPC);
  arriving : list EventRecord;
  stopping : nat;
  hist : list Obs
}.

(** The system around a trigger just built. *)
Definition init (t : Trigger) : Sys := mkSys t [] [] [] [] [] 0%nat [].

Definition scope_done (s : Sys) (k : nat) : bool :=
  match scopes s !! k with
  | Some b => b
  | None => false
  end.

(** A context [c] that stands for scope [k] at [now]: made by
    [context.WithCancel(context.Background())], so without deadline, and
    cancelled by [now] if the scope is. *)
Definition scope_ctx (s : Sys) (k : nat) (c : Context) (now : Time) : bool :=
  match ctx_deadline c with
  | Some _ => false
  | None => if scope_done s k then reached (ctx_cancel c) now else true
  end.

(** *** EventArrived *)

(** The send case of the [select], into the buffer. *)
Definition arrive_enqueue (ev : EventRecord) (s : Sys) : Outcome Sys :=
  c ← chan_send (eventCh (trigger s)) ev;
  Ok (mkSys (set_eventCh c (trigger s)) (scopes s) (filterWorkers s)
        (sendWorkers s) (watchers s) (arriving s ++ [ev]) (stopping s)
        (hist s ++ [ObsEnqueue ev])).

(** The send case of the [select], taken by filter worker [i] that waits in
    its own [select]. *)
Definition arrive_handoff (ev : EventRecord) (i : nat) (s : Sys) : Outcome Sys :=
  _ ← chan_handoff (eventCh (trigger s));
  match filterWorkers s !! i with
  | Some (k, FIdle) =>
    Ok (mkSys (trigger s) (scopes s) (<[i := (k, FGot ev)]> (filterWorkers s))
          (sendWorkers s) (watchers s) (arriving s ++ [ev]) (stopping s)
          (hist s ++ [ObsEnqueue ev]))
  | _ => Blocked
  end.

(** [t.offsetManager.EventReceive(event.OffsetInfo); return nil] of the
    [k]-th call that has sent its event. *)
Definition arrive_receive (k : nat) (s : Sys) : Outcome Sys :=
  match arriving s !! k with
  | Some ev =>
    Ok (mkSys (trigger s) (scopes s) (filterWorkers s) (sendWorkers s)
          (watchers s) (delete k (arriving s)) (stopping s)
          (hist s ++ [ObsReceive (OffsetInfo_of ev)]))
  | None => Blocked
  end.

(** The [<-ctx.Done()] case of the [select]: [return ctx.Err()]. *)
Definition arrive_cancelled (c : Context) (now : Time) (s : Sys) : Outcome Sys :=
  if Done c now then Ok s else Blocked.

(** The case that the [select] of [EventArrived] takes. *)
Inductive ArriveCase :=
| CaseSend
| CaseSendTo (i : nat)
| CaseDone.

(** A call of [EventArrived(ctx, event)] that runs to its return with no
    other goroutine in between. *)
Definition EventArrived (c : Context) (now : Time) (ev : EventRecord)
    (branch : ArriveCase) (s : Sys) : Outcome (Sys * error) :=
  match branch with
  | CaseSend =>
    s1 ← arrive_enqueue ev s;
    s2 ← arrive_receive (length (arriving s)) s1;
    Ok (s2, ErrNil)
  | CaseSendTo i =>
    s1 ← arrive_handoff ev i s;
    s2 ← arrive_receive (length (arriving s)) s1;
    Ok (s2, ErrNil)
  | CaseDone =>
    s1 ← arrive_cancelled c now s;
    Ok (s1, Err c now)
  end.

(** *** runEventProcess *)

Definition set_filterWorkers (ws : list (nat * FilterPC)) (s : Sys) : Sys :=
  mkSys (trigger s) (scopes s) ws (sendWorkers s) (watchers s) (arriving s)
    (stopping s) (hist s).

Definition set_sendWorkers (ws : list (nat * SendPC)) (s : Sys) : Sys :=
  mkSys (trigger s) (scopes s) (filterWorkers s) ws (watchers s) (arriving s)
    (stopping s) (hist s).

Definition set_trigger (t : Trigger) (s : Sys) : Sys :=
  mkSys t (scopes s) (filterWorkers s) (sendWorkers s) (watchers s)
    (arriving s) (stopping s) (hist s).

Definition add_hist (o : list Obs) (s : Sys) : Sys :=
  mkSys (trigger s) (scopes s) (filterWorkers s) (sendWorkers s) (watchers s)
    (arriving s) (stopping s) (hist s ++ o).

(** [case event, ok := <-t.eventCh]; the worker returns on [!ok]. *)
Definition filter_take (i : nat) (s : Sys) : Outcome Sys :=
  match filterWorkers s !! i with
  | Some (k, FIdle) =>
    '(r, c) ← chan_recv (eventCh (trigger s));
    match r with
    | Some ev =>
      Ok (set_filterWorkers (<[i := (k, FGot ev)]> (filterWorkers s))
            (set_trigger (set_eventCh c (trigger s)) s))
    | None => Ok (set_filterWorkers (<[i := (k, FExited)]> (filterWorkers s)) s)
    end
  | _ => Blocked
  end.

(** [case <-ctx.Done(): return] *)
Definition filter_done (i : nat) (s : Sys) : Outcome Sys :=
  match filterWorkers s !! i with
  | Some (k, FIdle) =>
    if scope_done s k
    then Ok (set_filterWorkers (<[i := (k, FExited)]> (filterWorkers s)) s)
    else Blocked
  | _ => Blocked
  end.

(** The test of the filter: on [FailFilter] the position is committed and
    the loop continues; otherwise the worker goes on to [t.sendCh <- event]. *)
Definition filter_eval (i : nat) (s : Sys) : Outcome Sys :=
  match filterWorkers s !! i with
  | Some (k, FGot ev) =>
    if decide (filter (trigger s) (Event ev) = FailFilter) then
      Ok (add_hist [ObsCommit (OffsetInfo_of ev) FilterReject]
            (set_filterWorkers (<[i := (k, FIdle)]> (filterWorkers s)) s))
    else
      Ok (set_filterWorkers (<[i := (k, FForward ev)]> (filterWorkers s)) s)
  | _ => Blocked
  end.

(** [t.sendCh <- event], into the buffer.  The send stands alone, outside
    any [select]: the worker does not look at its context here. *)
Definition filter_forward (i : nat) (s : Sys) : Outcome Sys :=
  match filterWorkers s !! i with
  | Some (k, FForward ev) =>
    c ← chan_send (sendCh (trigger s)) ev;
    Ok (set_filterWorkers (<[i := (k, FIdle)]> (filterWorkers s))
          (set_trigger (set_sendCh c (trigger s)) s))
  | _ => Blocked
  end.

(** [t.sendCh <- event], taken by send worker [j] that waits in its
    [select]. *)
Definition filter_handoff (i j : nat) (s : Sys) : Outcome Sys :=
  match filterWorkers s !! i, sendWorkers s !! j with
  | Some (k, FForward ev), Some (k', SIdle) =>
    _ ← chan_handoff (sendCh (trigger s));
    Ok (set_sendWorkers (<[j := (k', SGot ev)]> (sendWorkers s))
          (set_filterWorkers (<[i := (k, FIdle)]> (filterWorkers s)) s))
  | _, _ => Blocked
  end.

(** *** runEventSend *)

(** [case event, ok := <-t.sendCh]; the worker returns on [!ok]. *)
Definition send_take (j : nat) (s : Sys) : Outcome Sys :=
  match sendWorkers s !! j with
  | Some (k, SIdle) =>
    '(r, c) ← chan_recv (sendCh (trigger s));
    match r with
    | Some ev =>
      Ok (set_sendWorkers (<[j := (k, SGot ev)]> (sendWorkers s))
            (set_trigger (set_sendCh c (trigger s)) s))
    | None => Ok (set_sendWorkers (<[j := (k, SExited)]> (sendWorkers s)) s)
    end
  | _ => Blocked
  end.

(** [case <-ctx.Done(): return] *)
Definition send_done (j : nat) (s : Sys) : Outcome Sys :=
  match sendWorkers s !! j with
  | Some (k, SIdle) =>
    if scope_done s k
    then Ok (set_sendWorkers (<[j := (k, SExited)]> (sendWorkers s)) s)
    else Blocked
  | _ => Blocked
  end.

(** [err := t.retrySendEvent(ctx, event.Event)], started at [now] under the
    worker's context [c].  The loop reads the configuration and the sink
    client and nothing else of the trigger. *)
Definition send_retry (j : nat) (now : Time) (c : Context) (s : Sys) : Outcome Sys :=
  match sendWorkers s !! j with
  | Some (k, SGot ev) =>
    if scope_ctx s k c now then
      match ceClient (trigger s) with
      | Some cl =>
        let '(err, _, tr) :=
          retrySendEvent (config (trigger s)) cl c (Event ev) now in
        Ok (add_hist tr
              (set_sendWorkers (<[j := (k, SRetried ev err)]> (sendWorkers s)) s))
      | None => Panic "nil pointer dereference"
      end
    else Blocked
  | _ => Blocked
  end.

(** What [runEventSend] does with the result of the loop: [log.Error] if it
    is not nil, then [EventCommit] in either case. *)
Definition commit_after_retry (ev : EventRecord) (err : Result) : list Obs :=
  (if notNil err then [ObsError "send event to sink failed" err ev] else []) ++
  [ObsCommit (OffsetInfo_of ev) (if notNil err then RetriesExhausted else SendSuccess)].

Definition send_commit (j : nat) (s : Sys) : Outcome Sys :=
  match sendWorkers s !! j with
  | Some (k, SRetried ev err) =>
    Ok (add_hist (commit_after_retry ev err)
          (set_sendWorkers (<[j := (k, SIdle)]> (sendWorkers s)) s))
  | _ => Blocked
  end.

(** The body of the receive case of [runEventSend] for the event that send
    worker [j] holds: the retry loop, then the commit. *)
Definition runEventSend_body (j : nat) (now : Time) (c : Context) (s : Sys) : Outcome Sys :=
  s1 ← send_retry j now c s;
  send_commit j s1.

(** The body of the receive case of [runEventProcess] for the event that
    filter worker [i] holds; [to] is the send worker that takes the event
    at once, if one does. *)
Definition runEventProcess_body (i : nat) (to : option nat) (s : Sys) : Outcome Sys :=
  s1 ← filter_eval i s;
  match filterWorkers s1 !! i with
  | Some (_, FForward _) =>
    match to with
    | Some j => filter_handoff i j s1
    | None => filter_forward i s1
    end
  | _ => Ok s1
  end.

(** *** runSleepWatch *)

Definition watch_tick (w : nat) (now : Time) (s : Sys) : Outcome Sys :=
  match watchers s !! w with
  | Some (k, WIdle) => Ok (set_trigger (runSleepWatch_tick now (trigger s)) s)
  | _ => Blocked
  end.

Definition watch_done (w : nat) (s : Sys) : Outcome Sys :=
  match watchers s !! w with
  | Some (k, WIdle) =>
    if scope_done s k
    then Ok (mkSys (trigger s) (scopes s) (filterWorkers s) (sendWorkers s)
               (<[w := (k, WExited)]> (watchers s)) (arriving s) (stopping s)
               (hist s))
    else Blocked
  | _ => Blocked
  end.

(** *** Start and Stop *)

(** [Start()]; [client] is what [primitive.NewCeClient(t.Target)] returns
    ([None]: an error, which [Start] returns at once).  The new goroutines
    share the fresh scope. *)
Definition Start (client : option SinkClient) (now : Time) (s : Sys) : Outcome Sys :=
  match client with
  | None => Ok s
  | Some cl =>
    let k := length (scopes s) in
    let cfg := config (trigger s) in
    Ok (mkSys (set_started cl k now (trigger s))
          (scopes s ++ [false])
          (filterWorkers s ++ replicate (Z.to_nat (FilterProcessSize cfg)) (k, FIdle))
          (sendWorkers s ++ replicate (Z.to_nat (SendProcessSize cfg)) (k, SIdle))
          (watchers s ++ [(k, WIdle)])
          (arriving s) (stopping s) (hist s))
  end.

(** [Stop()] up to [wg.Wait()]: the log line, the test of the state and
    [t.stop()]. *)
Definition stop_begin (s : Sys) : Outcome Sys :=
  let s := add_hist [ObsInfo "trigger stop..."] s in
  if decide (state (trigger s) = TriggerStopped) then Ok s
  else match stop (trigger s) with
       | None => Panic "nil pointer dereference"
       | Some k =>
         Ok (mkSys (trigger s) (<[k := true]> (scopes s)) (filterWorkers s)
               (sendWorkers s) (watchers s) (arriving s) (S (stopping s))
               (hist s))
       end.

Definition filter_exited (w : nat * FilterPC) : bool :=
  match w.2 with FExited => true | _ => false end.
Definition send_exited (w : nat * SendPC) : bool :=
  match w.2 with SExited => true | _ => false end.
Definition watch_exited (w : nat * WatchPC) : bool :=
  match w.2 with WExited => true | _ => false end.

(** [wg.Wait()] returns once every goroutine of the group has returned. *)
Definition all_exited (s : Sys) : bool :=
  forallb filter_exited (filterWorkers s) &&
  forallb send_exited (sendWorkers s) &&
  forallb watch_exited (watchers s).

(** [Stop()] from the return of [wg.Wait()]: both channels are closed and
    the state is set. *)
Definition stop_end (s : Sys) : Outcome Sys :=
  match stopping s with
  | O => Blocked
  | S n =>
    if all_exited s then
      ec ← chan_close (eventCh (trigger s));
      sc ← chan_close (sendCh (trigger s));
      Ok (mkSys (set_state TriggerStopped (set_sendCh sc (set_eventCh ec (trigger s))))
            (scopes s) (filterWorkers s) (sendWorkers s) (watchers s)
            (arriving s) n (hist s ++ [ObsInfo "trigger stopped"]))
    else Blocked
  end.

(** A call of [Stop()] whose wait ends at once. *)
Definition Stop (s : Sys) : Outcome Sys :=
  s1 ← stop_begin s;
  if decide (state (trigger s) = TriggerStopped) then Ok s1 else stop_end s1.

(** ** The transition system *)

Inductive Action :=
| ActArriveEnqueue (ev : EventRecord)
| ActArriveHandoff (ev : EventRecord) (i : nat)
| ActArriveReceive (k : nat)
| ActArriveCancelled (c : Context) (now : Time)
| ActFilterTake (i : nat)
| ActFilterDone (i : nat)
| ActFilterEval (i : nat)
| ActFilterForward (i : nat)
| ActFilterHandoff (i j : nat)
| ActSendTake (j : nat)
| ActSendDone (j : nat)
| ActSendRetry (j : nat) (now : Time) (c : Context)
| ActSendCommit (j : nat)
| ActWatchTick (w : nat) (now : Time)
| ActWatchDone (w : nat)
| ActStart (client : option SinkClient) (now : Time)
| ActStopBegin
| ActStopEnd.

Definition step (a : Action) (s : Sys) : Outcome Sys :=
  match a with
  | ActArriveEnqueue ev => arrive_enqueue ev s
  | ActArriveHandoff ev i => arrive_handoff ev i s
  | ActArriveReceive k => arrive_receive k s
  | ActArriveCancelled c now => arrive_cancelled c now s
  | ActFilterTake i => filter_take i s
  | ActFilterDone i => filter_done i s
  | ActFilterEval i => filter_eval i s
  | ActFilterForward i => filter_forward i s
  | ActFilterHandoff i j => filter_handoff i j s
  | ActSendTake j => send_take j s
  | ActSendDone j => send_done j s
  | ActSendRetry j now c => send_retry j now c s
  | ActSendCommit j => send_commit j s
  | ActWatchTick w now => watch_tick w now s
  | ActWatchDone w => watch_done w s
  | ActStart client now => Start client now s
  | ActStopBegin => stop_begin s
  | ActStopEnd => stop_end s
  end.

(** A schedule runs as long as every one of its steps returns. *)
Fixpoint run (sched : list Action) (s : Sys) : Outcome Sys :=
  match sched with
  | [] => Ok s
  | a :: sched => s1 ← step a s; run sched s1
  end.

(** ** Properties of histories and states *)

Definition isCommit (o : OffsetInfo) (x : Obs) : bool :=
  match x with ObsCommit o' _ => bool_decide (o' = o) | _ => false end.
Definition isEnqueue (o : OffsetInfo) (x : Obs) : bool :=
  match x with ObsEnqueue ev => bool_decide (OffsetInfo_of ev = o) | _ => false end.
Definition isReceive (o : OffsetInfo) (x : Obs) : bool :=
  match x with ObsReceive o' => bool_decide (o' = o) | _ => false end.

(** The calls of [EventCommit] for position [o], and the events of position
    [o] that [EventArrived] has put into the intake queue. *)
Definition commits (o : OffsetInfo) (h : list Obs) : nat := count (isCommit o) h.
Definition accepted (o : OffsetInfo) (h : list Obs) : nat := count (isEnqueue o) h.

(** The events of position [o] in a queue. *)
Definition queued (o : OffsetInfo) (evs : list EventRecord) : nat :=
  length (List.filter (λ ev, bool_decide (OffsetInfo_of ev = o)) evs).

Definition unit_of (o : OffsetInfo) (ev : EventRecord) : nat :=
  if bool_decide (OffsetInfo_of ev = o) then 1 else 0.

Definition held_filter (o : OffsetInfo) (w : nat * FilterPC) : nat :=
  match w.2 with
  | FGot ev | FForward ev => unit_of o ev
  | FIdle | FExited => 0
  end.

Definition held_send (o : OffsetInfo) (w : nat * SendPC) : nat :=
  match w.2 with
  | SGot ev | SRetried ev _ => unit_of o ev
  | SIdle | SExited => 0
  end.

(** The events of position [o] that are in the pipeline: in one of the two
    queues or in the hands of a worker. *)
Definition inflight (o : OffsetInfo) (s : Sys) : nat :=
  (queued o (buf (eventCh (trigger s)))
   + sum_list_with (held_filter o) (filterWorkers s)
   + queued o (buf (sendCh (trigger s)))
   + sum_list_with (held_send o) (sendWorkers s))%nat.

(** The positions that [EventArrived] has accepted, in order. *)
Definition accepted_positions (h : list Obs) : list OffsetInfo :=
  omap (λ x, match x with ObsEnqueue ev => Some (OffsetInfo_of ev) | _ => None end) h.

(** In history [h], the entry at index [i] comes after the event of
    position [o] was put into the intake queue. *)
Definition after_enqueue (h : list Obs) (i : nat) (o : OffsetInfo) : Prop :=
  ∃ j ev, (j < i)%nat ∧ h !! j = Some (ObsEnqueue ev) ∧ OffsetInfo_of ev = o.

(** In history [h], the entry at index [i] comes after the registration of
    position [o] with [EventReceive]. *)
Definition after_receive (h : list Obs) (i : nat) (o : OffsetInfo) : Prop :=
  ∃ j, (j < i)%nat ∧ h !! j = Some (ObsReceive o).

(** Every entry of the tracker in [h] comes after the enqueue of its
    position. *)
Definition tracked_after_enqueue (h : list Obs) : Prop :=
  ∀ i o, (h !! i = Some (ObsReceive o) ∨ ∃ p, h !! i = Some (ObsCommit o p)) →
         after_enqueue h i o.

(** A trigger fresh from [NewTrigger]: nothing in its queues. *)
Definition fresh (t : Trigger) : Prop :=
  buf (eventCh t) = [] ∧ buf (sendCh t) = [].

(** The calls of [EventReceive] for position [o]. *)
Definition receives (o : OffsetInfo) (h : list Obs) : nat := count (isReceive o) h.

(** What one step from [s] to [s'] does to the history and to the events
    in the pipeline: the history grows by [ext]; an event leaves the
    pipeline with each commit and enters it with each enqueue; a call of
    [EventArrived] registers once for each enqueue; and [ext] is one enqueue
    or has none. *)
Definition delta_ok (s s' : Sys) : Prop :=
  ∃ ext,
    hist s' = hist s ++ ext ∧
    (∀ o, commits o ext + inflight o s' = inflight o s + accepted o ext)%nat ∧
    (∀ o, receives o ext + queued o (arriving s')
          = queued o (arriving s) + accepted o ext)%nat ∧
    ((∃ ev, ext = [ObsEnqueue ev]) ∨ ∀ o, accepted o ext = 0%nat).

(** The invariant of the pipeline: for every position, the commits and the
    events still in the pipeline add up to the accepted events, and so do
    the registrations and the calls still to register; and the tracker
    hears of a position only after its enqueue. *)
Definition pipeline_inv (s : Sys) : Prop :=
  (∀ o, commits o (hist s) + inflight o s = accepted o (hist s))%nat ∧
  (∀ o, receives o (hist s) + queued o (arriving s) = accepted o (hist s))%nat ∧
  tracked_after_enqueue (hist s).

(** Nothing is left to do for the workers and no call is under way: both
    queues are empty, no worker holds an event, no [EventArrived] is between
    its send and its registration and no [Stop] waits. *)
Definition quiescent (s : Sys) : Prop :=
  buf (eventCh (trigger s)) = [] ∧ buf (sendCh (trigger s)) = [] ∧
  arriving s = [] ∧ stopping s = 0%nat ∧
  Forall (λ w, w.2 = FIdle ∨ w.2 = FExited) (filterWorkers s) ∧
  Forall (λ w, w.2 = SIdle ∨ w.2 = SExited) (sendWorkers s).

(** The statement "every accepted event is committed exactly once, after its
    receive registration", read on the history of a run. *)
Definition committed_once_after_receive (h : list Obs) : Prop :=
  ∀ o, (0 < accepted o h)%nat →
       commits o h = 1%nat ∧
       ∀ i p, h !! i = Some (ObsCommit o p) → after_receive h i o.

(** The statement "a pause occurs only between two attempts", read on the
    trace of the retry loop: every [time.Sleep] is followed by a later
    [Send]. *)
Definition pause_only_between (tr : list Obs) : Prop :=
  ∀ i t d, tr !! i = Some (ObsSleep t d) →
           ∃ j t' c e, (i < j)%nat ∧ tr !! j = Some (ObsSend t' c e).

(** The order of attempts and pauses in a trace: [true] for a [Send],
    [false] for a [time.Sleep]. *)
Definition attempts_and_pauses (tr : list Obs) : list bool :=
  omap (λ x, match x with
             | ObsSend _ _ _ => Some true
             | ObsSleep _ _ => Some false
             | _ => None
             end) tr.

(** The statement "once the context is cancelled the loop makes no further
    attempt and no further pause", read on the trace of the retry loop: no
    [Send] and no [time.Sleep] starts at or after the cancellation. *)
Definition exits_early (c : Context) (tr : list Obs) : Prop :=
  ∀ x, x ∈ tr →
       match x with
       | ObsSend t _ _ | ObsSleep t _ => reached (ctx_cancel c) t = false
       | _ => True
       end.

(** The statement "no operation changes state [st]". *)
Definition terminal (st : TriggerState) : Prop :=
  ∀ a s s', state (trigger s) = st → step a s = Ok s' →
            state (trigger s') = st.

(** The sink rejects every attempt. *)
Definition always_rejects (cl : SinkClient) : Prop :=
  ∀ now c e, IsACK (cl now c e).1 = false.

(** Modelled from the spec: [Config.initConfig], which is declared outside
    [trigger.go]: every field that is unset (at its zero value or below)
    takes its default, here the value of the same field in [d]. *)
Definition initConfig_defaults (d : Config) (c : Config) : Config :=
  let pick (f : Config → Z) := if f c <=? 0 then f d else f c in
  mkConfig (pick FilterProcessSize) (pick SendProcessSize) (pick BufferSize)
           (pick MaxRetryTimes) (pick RetryPeriod) (pick SendTimeOut).

(** ** Concrete inputs *)

Definition config3 : Config := mkConfig 1 1 2 3 5 7.
Definition config1 : Config := mkConfig 1 1 2 1 5 7.
Definition config0 : Config := mkConfig 1 1 2 0 5 7.

(** A sink that rejects every attempt after 10 ns, and at once under a
    context that is done. *)
Definition rejecting : SinkClient :=
  λ now c _, if Done c now then (ResultUndelivered "context canceled", 0)
             else (ResultNACK, 10).

(** A sink that acknowledges every attempt after 10 ns. *)
Definition acking : SinkClient := λ _ _ _, (ResultACK, 10).

Definition drop_all : Filter := λ _, FailFilter.
Definition pass_all : Filter := λ _, PassFilter.

Definition trigger_of (f : Filter) (cfg : Config) : Trigger :=
  mkTrigger "id" "sub" "http://sink" (30 * Second) TriggerCreated 0 0%nat None
    (mkChan [] (BufferSize cfg) false) (mkChan [] (BufferSize cfg) false)
    None f cfg.

Definition ev1 : EventRecord := mkEventRecord "a" 1.

(** The classification of the sink's replies to the attempts of a trace, in
    order: [true] for an acknowledgment. *)
Definition replies (cl : SinkClient) (tr : list Obs) : list bool :=
  omap (λ x, match x with
             | ObsSend t c e => Some (IsACK (cl t c e).1)
             | _ => None
             end) tr.

(** What the retry loop for event [e] under context [c] may leave in its
    trace: attempts under [WithTimeout(ctx, SendTimeOut)], pauses of
    [RetryPeriod] and debug lines. *)
Definition retry_obs (cfg : Config) (c : Context) (e : CeEvent) (x : Obs) : Prop :=
  match x with
  | ObsSend t c' e' => c' = WithTimeout c (SendTimeOut cfg) t ∧ e' = e
  | ObsSleep _ d => d = RetryPeriod cfg
  | ObsDebug _ _ => True
  | _ => False
  end.

(** [m] rejected attempts, each followed by its pause, then an acknowledged
    attempt if [acked]. *)
Definition rounds (m : nat) (acked : bool) : list bool :=
  mjoin (replicate m [true; false]) ++ (if acked then [true] else []).

(** A system whose one send worker holds [ev1], just received. *)
Definition holding (cfg : Config) (cl : SinkClient) : Sys :=
  mkSys (set_started cl 0 0 (trigger_of pass_all cfg)) [false]
    [(0%nat, FIdle)] [(0%nat, SGot ev1)] [(0%nat, WIdle)] [] 0
    [ObsEnqueue ev1; ObsReceive 1].

(** A system whose one filter worker holds [ev1], just received. *)
Definition filtering (f : Filter) : Sys :=
  mkSys (set_started acking 0 0 (trigger_of f config3)) [false]
    [(0%nat, FGot ev1)] [(0%nat, SIdle)] [(0%nat, WIdle)] [] 0
    [ObsEnqueue ev1; ObsReceive 1].

(** A system stopped after one [Start]: the workers and the watcher have
    returned and [Stop] has closed the queues. *)
Definition stop_schedule : list Action :=
  [ActStart (Some acking) 0; ActStopBegin; ActFilterDone 0; ActSendDone 0;
   ActWatchDone 0; ActStopEnd].

Definition stopped_sys : Sys :=
  mkSys
    (mkTrigger "id" "sub" "http://sink" (30 * Second) TriggerStopped 0 0%nat
       (Some 0%nat) (mkChan [] 2 true) (mkChan [] 2 true) (Some acking)
       pass_all config3)
    [true] [(0%nat, FExited)] [(0%nat, SExited)] [(0%nat, WExited)] [] 0
    [ObsInfo "trigger stop..."; ObsInfo "trigger stopped"].

(** One event through the pipeline, from [EventArrived] to its commit by
    the send worker. *)
Definition deliver_schedule : list Action :=
  [ActStart (Some acking) 0; ActArriveEnqueue ev1; ActArriveReceive 0;
   ActFilterTake 0; ActFilterEval 0; ActFilterForward 0; ActSendTake 0;
   ActSendRetry 0 1 Background; ActSendCommit 0].

(** The filter worker takes the event and commits it before the call of
    [EventArrived] that sent it comes to register it. *)
Definition race_schedule : list Action :=
  [ActStart (Some acking) 0; ActArriveEnqueue ev1; ActFilterTake 0;
   ActFilterEval 0; ActArriveReceive 0].

(** [Stop] while an accepted event waits in the intake queue. *)
Definition abandon_schedule : list Action :=
  [ActStart (Some acking) 0; ActArriveEnqueue ev1; ActArriveReceive 0;
   ActStopBegin; ActFilterDone 0; ActSendDone 0; ActWatchDone 0; ActStopEnd].

Definition sys_after (sched : list Action) (t : Trigger) : Sys :=
  match run sched (init t) with
  | Ok s => s
  | _ => init t
  end.

(** The events on the way to the sink pass filter [f]: those in the send
    queue, those that a filter worker is about to forward, those that a send
    worker holds, and those that the history shows as sent. *)
Definition filter_pc_passes (f : Filter) (w : nat * FilterPC) : Prop :=
  match w.2 with
  | FForward ev => f (Event ev) ≠ FailFilter
  | _ => True
  end.

Definition send_pc_passes (f : Filter) (w : nat * SendPC) : Prop :=
  match w.2 with
  | SGot ev | SRetried ev _ => f (Event ev) ≠ FailFilter
  | _ => True
  end.

Definition obs_passes (f : Filter) (x : Obs) : Prop :=
  match x with
  | ObsSend _ _ e => f e ≠ FailFilter
  | _ => True
  end.

Definition pass_inv (f : Filter) (s : Sys) : Prop :=
  filter (trigger s) = f ∧
  Forall (λ ev, f (Event ev) ≠ FailFilter) (buf (sendCh (trigger s))) ∧
  Forall (filter_pc_passes f) (filterWorkers s) ∧
  Forall (send_pc_passes f) (sendWorkers s) ∧
  Forall (obs_passes f) (hist s).

(** Up to the receipt of [ev1] by the filter worker. *)
Definition receive_schedule : list Action :=
  [ActStart (Some acking) 0; ActArriveEnqueue ev1; ActArriveReceive 0;
   ActFilterTake 0].

(** ** Properties of runs *)

(** A [Start] whose sink client is built. *)
Definition is_start (a : Action) : bool :=
  match a with
  | ActStart (Some _) _ => true
  | _ => false
  end.

(** The schedule has no [Start] whose sink client is built. *)
Definition no_start (sched : list Action) : Prop :=
  Forall (λ a, is_start a = false) sched.

(** The calls of [Start] in the schedule whose sink client is built. *)
Definition starts (sched : list Action) : nat :=
  length (List.filter is_start sched).

(** A queue holds no more than its capacity. *)
Definition within (c : Chan) : Prop :=
  Z.of_nat (length (buf c)) ≤ cap c.

(** [t.stop] is the cancel function of the scope made last. *)
Definition stop_latest (s : Sys) : Prop :=
  match stop (trigger s) with
  | Some k => S k = length (scopes s)
  | None => scopes s = []
  end.

(** Filter worker [i] stands at [t.sendCh <- event] while the send queue is
    open and full and every send worker has returned. *)
Definition stuck (i : nat) (s : Sys) : Prop :=
  (∃ k ev, filterWorkers s !! i = Some (k, FForward ev)) ∧
  closed (sendCh (trigger s)) = false ∧
  cap (sendCh (trigger s)) ≤ Z.of_nat (length (buf (sendCh (trigger s)))) ∧
  forallb send_exited (sendWorkers s) = true.

(** Two passing events against a send queue of capacity 1: the first fills
    the queue, the filter worker holds the second at [t.sendCh <- event],
    [Stop] cancels the scope and the send worker returns. *)
Definition config_small : Config := mkConfig 1 1 1 3 5 7.

Definition ev2 : EventRecord := mkEventRecord "b" 2.

Definition stuck_schedule : list Action :=
  [ActStart (Some acking) 0; ActArriveEnqueue ev1; ActArriveReceive 0;
   ActFilterTake 0; ActFilterEval 0; ActFilterForward 0;
   ActArriveEnqueue ev2; ActArriveReceive 0; ActFilterTake 0; ActFilterEval 0;
   ActStopBegin; ActSendDone 0].

(** A trigger asleep after its first idle interval. *)
Definition asleep_sys : Sys :=
  mkSys (set_state TriggerSleep (set_started acking 0 0 (trigger_of pass_all config3)))
    [false] [(0%nat, FIdle)] [(0%nat, SIdle)] [(0%nat, WIdle)] [] 0 [].

Definition run_from (sched : list Action) (s : Sys) : Sys :=
  match run sched s with
  | Ok s' => s'
  | _ => s
  end.

(** An event arrives and is taken by the filter worker around a tick of the
    watcher. *)
Definition busy_schedule : list Action :=
  [ActArriveEnqueue ev1; ActArriveReceive 0; ActWatchTick 0 5; ActFilterTake 0].

(** [Start], then [Stop] while all is idle: each of the [n] filter workers
    and [m] send workers and the watcher takes the [ctx.Done()] case of its
    [select], then [wg.Wait] returns. *)
Definition idle_workers_return (n m : nat) : list Action :=
  (ActFilterDone <$> seq 0 n) ++ (ActSendDone <$> seq 0 m) ++ [ActWatchDone 0].

Definition start_stop_schedule (cfg : Config) (cl : SinkClient) (now : Time)
    : list Action :=
  [ActStart (Some cl) now; ActStopBegin] ++
  idle_workers_return (Z.to_nat (FilterProcessSize cfg))
                      (Z.to_nat (SendProcessSize cfg)) ++
  [ActStopEnd].

(** The events that [EventArrived] has accepted, in order. *)
Definition enq (h : list Obs) : list EventRecord :=
  omap (λ x, match x with ObsEnqueue ev => Some ev | _ => None end) h.

(** Event [ev] is one of the accepted events [E]; on the way to the sink it
    has also passed filter [f]. *)
Definition known (E : list EventRecord) (ev : EventRecord) : Prop := ev ∈ E.

Definition known_pass (f : Filter) (E : list EventRecord) (ev : EventRecord) : Prop :=
  ev ∈ E ∧ f (Event ev) ≠ FailFilter.

Definition filter_pc_known (f : Filter) (E : list EventRecord)
    (w : nat * FilterPC) : Prop :=
  match w.2 with
  | FGot ev => known E ev
  | FForward ev => known_pass f E ev
  | _ => True
  end.

Definition send_pc_known (f : Filter) (E : list EventRecord)
    (w : nat * SendPC) : Prop :=
  match w.2 with
  | SGot ev | SRetried ev _ => known_pass f E ev
  | _ => True
  end.

(** A commit in the history is the commit of an accepted event of that
    position, on the filter-reject path if the event fails filter [f] and on
    a path of the send worker if it does not. *)
Definition commit_justified (f : Filter) (E : list EventRecord) (x : Obs) : Prop :=
  match x with
  | ObsCommit o p =>
    ∃ ev, ev ∈ E ∧ OffsetInfo_of ev = o ∧
          (p = FilterReject ↔ f (Event ev) = FailFilter)
  | _ => True
  end.

Definition verdict_inv (f : Filter) (s : Sys) : Prop :=
  filter (trigger s) = f ∧
  Forall (known (enq (hist s))) (buf (eventCh (trigger s))) ∧
  Forall (filter_pc_known f (enq (hist s))) (filterWorkers s) ∧
  Forall (known_pass f (enq (hist s))) (buf (sendCh (trigger s))) ∧
  Forall (send_pc_known f (enq (hist s))) (sendWorkers s) ∧
  Forall (commit_justified f (enq (hist s))) (hist s).

(** One event from [EventArrived] through filter worker [i] and send worker
    [j] to its commit. *)
Definition deliver_by (i j : nat) (now : Time) (c : Context) (ev : EventRecord)
    : list Action :=
  [ActArriveEnqueue ev; ActArriveReceive 0; ActFilterTake i; ActFilterEval i;
   ActFilterForward i; ActSendTake j; ActSendRetry j now c; ActSendCommit j].

(** One event from [EventArrived] to its commit by filter worker [i]. *)
Definition drop_by (i : nat) (ev : EventRecord) : list Action :=
  [ActArriveEnqueue ev; ActArriveReceive 0; ActFilterTake i; ActFilterEval i].

(** Both queues are open, empty and of capacity at least 1, and no call of
    [EventArrived] is under way. *)
Definition ready (s : Sys) : Prop :=
  closed (eventCh (trigger s)) = false ∧ buf (eventCh (trigger s)) = [] ∧
  0 < cap (eventCh (trigger s)) ∧
  closed (sendCh (trigger s)) = false ∧ buf (sendCh (trigger s)) = [] ∧
  0 < cap (sendCh (trigger s)) ∧
  arriving s = [].

(** The system right after [Start] on a trigger just built. *)
Definition started_sys : Sys :=
  mkSys (set_started acking 0 0 (trigger_of pass_all config3)) [false]
    [(0%nat, FIdle)] [(0%nat, SIdle)] [(0%nat, WIdle)] [] 0 [].

(** * Theorems *)

(** ** The retry loop *)

Lemma count_app f (a b : list Obs) : count f (a ++ b) = (count f a + count f b)%nat.
Proof. unfold count. by rewrite List.filter_app, length_app. Qed.

Section RetryFacts.
Variable config : Config.
Variable cl : SinkClient.
Variable ctx : Context.
Variable e : CeEvent.

(** The trace is only ever extended. *)
Lemma retry_loop_acc fuel rt err now tr :
  retry_loop config cl ctx e fuel rt err now tr =
  ((retry_loop config cl ctx e fuel rt err now []).1, tr ++ (retry_loop config cl ctx e fuel rt err now []).2).
Proof.
  revert rt err now tr.
  induction fuel as [|fuel IH]; intros rt err now tr; simpl.
  - by rewrite app_nil_r.
  - destruct (rt <? MaxRetryTimes config); [|by rewrite app_nil_r].
    unfold doFunc. destruct (cl now _ e) as [r d]. simpl.
    destruct (IsACK r); simpl; [done|].
    rewrite IH. rewrite (IH _ _ _ (_ :: _)). simpl. by rewrite <- app_assoc.
Qed.

(** The loop ends by its condition: more fuel than [MaxRetryTimes -
    retryTimes] changes nothing. *)
Lemma retry_loop_fuel fuel rt err now tr :
  (Z.to_nat (MaxRetryTimes config - rt) ≤ fuel)%nat →
  retry_loop config cl ctx e fuel rt err now tr =
  retry_loop config cl ctx e (Z.to_nat (MaxRetryTimes config - rt)) rt err now tr.
Proof.
  revert rt err now tr.
  induction fuel as [|fuel IH]; intros rt err now tr Hf.
  - by replace (Z.to_nat (MaxRetryTimes config - rt)) with 0%nat by lia.
  - simpl. destruct (Z.ltb_spec rt (MaxRetryTimes config)) as [Hlt|Hge].
    + replace (Z.to_nat (MaxRetryTimes config - rt))
        with (S (Z.to_nat (MaxRetryTimes config - (rt + 1)))) by lia.
      simpl. destruct (Z.ltb_spec rt (MaxRetryTimes config)); [|lia].
      destruct (doFunc config cl ctx e now) as [[r n] o].
      destruct (IsACK r); simpl; [done|]. apply IH. lia.
    + replace (Z.to_nat (MaxRetryTimes config - rt)) with 0%nat by lia. done.
Qed.

(** The shape of the trace of the loop entered with [retryTimes = rt]. *)
Lemma retry_loop_shape fuel rt err now :
  (Z.to_nat (MaxRetryTimes config - rt) ≤ fuel)%nat →
  ∃ (m : nat) (acked : bool),
    let r := retry_loop config cl ctx e fuel rt err now [] in
    replies cl r.2 = replicate m false ++ (if acked then [true] else []) ∧
    attempts_and_pauses r.2 = rounds m acked ∧
    (m + (if acked then 1 else 0) ≤ Z.to_nat (MaxRetryTimes config - rt))%nat ∧
    (acked = false → m = Z.to_nat (MaxRetryTimes config - rt)) ∧
    (acked = true → r.1.1 = ResultNil) ∧
    (acked = false → m = 0%nat → r.1 = (err, now)) ∧
    (acked = false → (0 < m)%nat → IsACK r.1.1 = false) ∧
    Forall (retry_obs config ctx e) r.2.
Proof.
  revert rt err now.
  induction fuel as [|fuel IH]; intros rt err now Hf.
  - exists 0%nat, false. simpl. split_and!; try done; lia.
  - simpl. destruct (Z.ltb_spec rt (MaxRetryTimes config)) as [Hlt|Hge].
    2:{ exists 0%nat, false. simpl. split_and!; try done; lia. }
    unfold doFunc. destruct (cl now _ e) as [r d] eqn:Hcl.
    destruct (IsACK r) eqn:Hack; simpl.
    + exists 0%nat, true. simpl. rewrite Hcl. simpl. rewrite Hack.
      split_and!; try done; try lia.
      repeat constructor.
    + rewrite retry_loop_acc.
      destruct (IH (rt + 1) r (elapse (elapse now d) (RetryPeriod config)))
        as (m & acked & H1 & H2 & H3 & H4 & H5 & H6 & H7 & H8); [lia|].
      simpl in *. exists (S m), acked.
      rewrite Hcl. simpl. rewrite Hack.
      split_and!.
      * by rewrite H1.
      * unfold rounds in *. simpl. by rewrite H2.
      * lia.
      * intros Ha. specialize (H4 Ha). lia.
      * done.
      * intros _ ?. lia.
      * intros Ha _. destruct m as [|m].
        -- rewrite (H6 Ha eq_refl). done.
        -- apply H7; [done|lia].
      * repeat (constructor; [done|]). done.
Qed.
End RetryFacts.

Lemma sends_replies cl tr : length (replies cl tr) = sends tr.
Proof.
  unfold replies, sends, count.
  induction tr as [|x tr IH]; [done|]. destruct x; simpl; auto.
Qed.

Lemma sleeps_pauses tr :
  length (List.filter negb (attempts_and_pauses tr)) = sleeps tr.
Proof.
  unfold attempts_and_pauses, sleeps, count.
  induction tr as [|x tr IH]; [done|]. destruct x; simpl; auto.
Qed.

Lemma rounds_pauses m acked : length (List.filter negb (rounds m acked)) = m.
Proof.
  unfold rounds. induction m as [|m IH]; simpl.
  - by destruct acked.
  - by rewrite IH.
Qed.

(** [retrySendEvent] runs its loop with enough fuel. *)
Lemma retrySendEvent_shape config cl ctx e now :
  ∃ (m : nat) (acked : bool),
    let r := retrySendEvent config cl ctx e now in
    replies cl r.2 = replicate m false ++ (if acked then [true] else []) ∧
    attempts_and_pauses r.2 = rounds m acked ∧
    (m + (if acked then 1 else 0) ≤ Z.to_nat (MaxRetryTimes config))%nat ∧
    (acked = false → m = Z.to_nat (MaxRetryTimes config)) ∧
    (acked = true → r.1.1 = ResultNil) ∧
    (acked = false → m = 0%nat → r.1 = (ResultNil, now)) ∧
    (acked = false → (0 < m)%nat → IsACK r.1.1 = false) ∧
    Forall (retry_obs config ctx e) r.2.
Proof.
  unfold retrySendEvent.
  destruct (retry_loop_shape config cl ctx e
              (Z.to_nat (MaxRetryTimes config)) 0 ResultNil now) as (m & acked & H).
  { rewrite Z.sub_0_r. lia. }
  rewrite Z.sub_0_r in H. by exists m, acked.
Qed.

(** C3 (as it holds): the loop makes at most [MaxRetryTimes] attempts, each
    with the event under [WithTimeout(ctx, SendTimeOut)]; every attempt
    but the last is rejected; every rejected attempt, the last one too, is
    followed by one pause of [RetryPeriod] and an acknowledged attempt by
    none; the loop stops short of [MaxRetryTimes] attempts only on an
    acknowledgment, and it returns nil exactly when an attempt was
    acknowledged or no attempt was allowed. *)
Theorem retrySendEvent_attempts (config : Config) (cl : SinkClient)
    (ctx : Context) (e : CeEvent) (now : Time) :
  ∃ (m : nat) (acked : bool),
    let r := retrySendEvent config cl ctx e now in
    replies cl r.2 = replicate m false ++ (if acked then [true] else []) ∧
    attempts_and_pauses r.2 = rounds m acked ∧
    sends r.2 = (m + (if acked then 1 else 0))%nat ∧
    sleeps r.2 = m ∧
    (sends r.2 ≤ Z.to_nat (MaxRetryTimes config))%nat ∧
    (acked = false → m = Z.to_nat (MaxRetryTimes config)) ∧
    (r.1.1 = ResultNil ↔ acked = true ∨ MaxRetryTimes config ≤ 0) ∧
    Forall (retry_obs config ctx e) r.2.
Proof.
  destruct (retrySendEvent_shape config cl ctx e now)
    as (m & acked & H1 & H2 & H3 & H4 & H5 & H6 & H7 & H8).
  exists m, acked. simpl in *.
  assert (Hs : sends (retrySendEvent config cl ctx e now).2
               = (m + (if acked then 1 else 0))%nat).
  { rewrite <- (sends_replies cl), H1, length_app, length_replicate.
    by destruct acked. }
  split_and!; try done.
  - by rewrite <- sleeps_pauses, H2, rounds_pauses.
  - lia.
  - split.
    + intros Hnil. destruct acked; [by left|right].
      specialize (H4 eq_refl).
      destruct m as [|m]; [lia|].
      specialize (H7 eq_refl ltac:(lia)). rewrite Hnil in H7. done.
    + intros [Ha|Hz]; [by apply H5|].
      destruct acked; [by apply H5|].
      specialize (H4 eq_refl).
      rewrite (H6 eq_refl); [done|lia].
Qed.

(** C3 (as stated) fails: with [MaxRetryTimes = 1] and a sink that rejects,
    the trace ends with a pause that no attempt follows. *)
Lemma retrySendEvent_pause_after_last :
  ¬ pause_only_between (retrySendEvent config1 rejecting Background "a" 0).2.
Proof.
  intros H. destruct (H 2%nat 10 5 eq_refl) as (j & t & c & e & Hj & Hl).
  vm_compute in Hl.
  destruct j as [|[|[|j]]]; try lia; discriminate.
Qed.

(** The child context is done whenever its parent is cancelled. *)
Lemma WithTimeout_cancelled ctx d t now :
  reached (ctx_cancel ctx) now = true → Done (WithTimeout ctx d t) now = true.
Proof. intros H. unfold Done, WithTimeout. simpl. by rewrite H. Qed.

Lemma reached_elapse o now d :
  reached o now = true → reached o (elapse now d) = true.
Proof.
  unfold reached, elapse. destruct o; [|done]. intros H.
  apply Z.leb_le in H. apply Z.leb_le. lia.
Qed.

(** C6 (as it holds): cancellation does not end the loop.  From any point of
    the loop at which the caller's context is cancelled, with a sink that
    rejects what it is sent under a done context, the loop makes every
    attempt that [MaxRetryTimes] still allows, pauses after each of them,
    and returns a rejection, not nil. *)
Theorem retry_loop_ignores_cancel (config : Config) (cl : SinkClient)
    (ctx : Context) (e : CeEvent) (rt : Z) (err : Result) (now : Time) :
  reached (ctx_cancel ctx) now = true →
  (∀ t c e', Done c t = true → IsACK (cl t c e').1 = false) →
  let left := Z.to_nat (MaxRetryTimes config - rt) in
  let r := retry_loop config cl ctx e left rt err now [] in
  sends r.2 = left ∧ sleeps r.2 = left ∧
  (rt < MaxRetryTimes config → IsACK r.1.1 = false).
Proof.
  intros Hc Hrej. simpl.
  remember (Z.to_nat (MaxRetryTimes config - rt)) as n eqn:Hn.
  revert rt err now Hc Hn.
  induction n as [|n IH]; intros rt err now Hc Hn; simpl.
  - split_and!; try done. lia.
  - destruct (Z.ltb_spec rt (MaxRetryTimes config)) as [Hlt|Hge]; [|lia].
    unfold doFunc. destruct (cl now _ e) as [r d] eqn:Hcl.
    assert (Hr : IsACK r = false).
    { specialize (Hrej now (WithTimeout ctx (SendTimeOut config) now) e
                    (WithTimeout_cancelled _ _ _ _ Hc)).
      by rewrite Hcl in Hrej. }
    rewrite Hr. simpl. rewrite retry_loop_acc. simpl.
    destruct (IH (rt + 1) r (elapse (elapse now d) (RetryPeriod config)))
      as (H1 & H2 & H3).
    { by do 2 apply reached_elapse. }
    { lia. }
    unfold sends, sleeps, count in *. simpl.
    rewrite H1, H2. split_and!; try done.
    intros _. destruct (Z.ltb_spec (rt + 1) (MaxRetryTimes config)) as [Hlt'|Hge'].
    + by apply H3.
    + replace n with 0%nat by lia. done.
Qed.

Lemma retry_loop_ignores_cancel_witness :
  let r := retry_loop config3 rejecting (mkContext (Some 1) None) "a" 2 1
             ResultNACK 15 [] in
  sends r.2 = 2%nat ∧ sleeps r.2 = 2%nat ∧ IsACK r.1.1 = false.
Proof.
  destruct (retry_loop_ignores_cancel config3 rejecting
              (mkContext (Some 1) None) "a" 1 ResultNACK 15) as (H1 & H2 & H3).
  - reflexivity.
  - intros t c e' Hd. unfold rejecting. by rewrite Hd.
  - split_and!; [exact H1|exact H2|apply H3; reflexivity].
Defined.

(** C6 (as stated) fails: the context is cancelled at instant 1, during the
    first attempt; the loop then pauses at 10 and goes on to its second and
    third attempt. *)
Lemma retrySendEvent_goes_on_after_cancel :
  ¬ exits_early (mkContext (Some 1) None)
      (retrySendEvent config3 rejecting (mkContext (Some 1) None) "a" 0).2
  ∧ sends (retrySendEvent config3 rejecting (mkContext (Some 1) None) "a" 0).2
    = 3%nat.
Proof.
  split; [|reflexivity].
  intros H. specialize (H (ObsSleep 10 5)). simpl in H.
  assert (Hin : ObsSleep 10 5 ∈
            (retrySendEvent config3 rejecting (mkContext (Some 1) None) "a" 0).2).
  { vm_compute. do 2 apply list_elem_of_further. apply list_elem_of_here. }
  specialize (H Hin). discriminate.
Qed.

(** ** The send worker *)

Lemma retry_obs_count config c e f tr :
  (∀ x, retry_obs config c e x → f x = false) →
  Forall (retry_obs config c e) tr → count f tr = 0%nat.
Proof.
  intros Hf H. unfold count. induction H as [|x tr Hx _ IH]; [done|].
  simpl. by rewrite (Hf x Hx).
Qed.

Lemma retrySendEvent_no_commit config cl c e now o :
  commits o (retrySendEvent config cl c e now).2 = 0%nat.
Proof.
  destruct (retrySendEvent_shape config cl c e now) as (m & acked & H).
  simpl in H. destruct H as (_ & _ & _ & _ & _ & _ & _ & H).
  apply (retry_obs_count config c e); [|done].
  intros [] Hx; simpl in *; done.
Qed.

Lemma retrySendEvent_no_enqueue config cl c e now o :
  accepted o (retrySendEvent config cl c e now).2 = 0%nat.
Proof.
  destruct (retrySendEvent_shape config cl c e now) as (m & acked & H).
  simpl in H. destruct H as (_ & _ & _ & _ & _ & _ & _ & H).
  apply (retry_obs_count config c e); [|done].
  intros [] Hx; simpl in *; done.
Qed.

Lemma retrySendEvent_no_receive config cl c e now o :
  receives o (retrySendEvent config cl c e now).2 = 0%nat.
Proof.
  destruct (retrySendEvent_shape config cl c e now) as (m & acked & H).
  simpl in H. destruct H as (_ & _ & _ & _ & _ & _ & _ & H).
  apply (retry_obs_count config c e); [|done].
  intros [] Hx; simpl in *; done.
Qed.

Lemma commits_commit_after_retry ev err :
  commits (OffsetInfo_of ev) (commit_after_retry ev err) = 1%nat.
Proof.
  unfold commits, count, commit_after_retry.
  destruct (notNil err); simpl; by rewrite bool_decide_eq_true_2.
Qed.

(** What the body of [runEventSend] does for the event that worker [j]
    holds. *)
Lemma runEventSend_body_eq s j k ev now c cl :
  sendWorkers s !! j = Some (k, SGot ev) →
  ceClient (trigger s) = Some cl →
  scope_ctx s k c now = true →
  let r := retrySendEvent (config (trigger s)) cl c (Event ev) now in
  runEventSend_body j now c s =
  Ok (add_hist (commit_after_retry ev r.1.1)
        (set_sendWorkers (<[j := (k, SIdle)]> (sendWorkers s))
           (add_hist r.2 s))).
Proof.
  intros Hw Hcl Hctx. simpl.
  unfold runEventSend_body, send_retry. rewrite Hw, Hctx, Hcl.
  destruct (retrySendEvent _ cl c (Event ev) now) as [[err n] tr]. simpl.
  unfold send_commit. simpl.
  rewrite list_lookup_insert_eq by (by eapply lookup_lt_Some).
  by rewrite list_insert_insert_eq.
Qed.

(** C2: for the event that a send worker holds, whatever the sink answers,
    the body of [runEventSend] returns (it does not panic and hands no error
    to anyone), the worker is back in its [select], and the history has
    grown by the trace of the retry loop, the error line if the loop
    returned an error, and one [EventCommit] of the event's position, which
    comes last.  If the sink rejects every attempt and [MaxRetryTimes] is
    positive, the loop makes all its attempts and the error line is there. *)
Theorem runEventSend_commits (s : Sys) (j k : nat) (ev : EventRecord)
    (now : Time) (c : Context) (cl : SinkClient) :
  sendWorkers s !! j = Some (k, SGot ev) →
  ceClient (trigger s) = Some cl →
  scope_ctx s k c now = true →
  let r := retrySendEvent (config (trigger s)) cl c (Event ev) now in
  ∃ s',
    runEventSend_body j now c s = Ok s' ∧
    sendWorkers s' !! j = Some (k, SIdle) ∧
    hist s' = hist s ++ r.2 ++
              (if notNil r.1.1
               then [ObsError "send event to sink failed" r.1.1 ev] else []) ++
              [ObsCommit (OffsetInfo_of ev)
                 (if notNil r.1.1 then RetriesExhausted else SendSuccess)] ∧
    commits (OffsetInfo_of ev) (hist s') = S (commits (OffsetInfo_of ev) (hist s)) ∧
    (always_rejects cl → 0 < MaxRetryTimes (config (trigger s)) →
     notNil r.1.1 = true ∧
     sends r.2 = Z.to_nat (MaxRetryTimes (config (trigger s)))).
Proof.
  intros Hw Hcl Hctx r.
  eexists. split; [by apply (runEventSend_body_eq s j k ev now c cl)|].
  fold r. simpl. split_and!.
  - apply list_lookup_insert_eq. by eapply lookup_lt_Some.
  - unfold commit_after_retry. by rewrite <- !app_assoc.
  - unfold commits. rewrite !count_app.
    fold (commits (OffsetInfo_of ev) r.2).
    fold (commits (OffsetInfo_of ev) (commit_after_retry ev r.1.1)).
    unfold r. rewrite retrySendEvent_no_commit, commits_commit_after_retry.
    unfold commits. lia.
  - intros Hrej Hpos.
    destruct (retrySendEvent_shape (config (trigger s)) cl c (Event ev) now)
      as (m & acked & H1 & _ & _ & H4 & _ & _ & H7 & _).
    simpl in *. fold r in H1, H7.
    assert (acked = false) as ->.
    { destruct acked; [|done].
      assert (Hin : true ∈ replies cl r.2)
        by (rewrite H1; apply elem_of_app; right; constructor).
      unfold replies in Hin. apply list_elem_of_omap in Hin.
      destruct Hin as (x & _ & Hx). destruct x; try done.
      injection Hx as Hx. by rewrite Hrej in Hx. }
    specialize (H4 eq_refl). split.
    + specialize (H7 eq_refl ltac:(lia)). by destruct (r.1.1).
    + rewrite <- (sends_replies cl), H1, length_app, length_replicate. simpl. lia.
Qed.

Lemma runEventSend_commits_witness :
  ∃ s', runEventSend_body 0 0 Background (holding config3 rejecting) = Ok s' ∧
        hist s' !! 12%nat = Some (ObsCommit 1 RetriesExhausted).
Proof.
  destruct (runEventSend_commits (holding config3 rejecting) 0 0 ev1 0
              Background rejecting eq_refl eq_refl eq_refl)
    as (s' & H1 & H2 & H3 & H4 & H5).
  exists s'. split; [exact H1|]. rewrite H3. reflexivity.
Defined.

(** C10: with [MaxRetryTimes <= 0] the loop makes no attempt and returns
    nil at once, and the send worker that holds an event logs no failure
    and commits the position. *)
Theorem zero_retries_commit (s : Sys) (j k : nat) (ev : EventRecord)
    (now : Time) (c : Context) (cl : SinkClient) :
  MaxRetryTimes (config (trigger s)) ≤ 0 →
  sendWorkers s !! j = Some (k, SGot ev) →
  ceClient (trigger s) = Some cl →
  scope_ctx s k c now = true →
  retrySendEvent (config (trigger s)) cl c (Event ev) now = (ResultNil, now, []) ∧
  ∃ s',
    runEventSend_body j now c s = Ok s' ∧
    hist s' = hist s ++ [ObsCommit (OffsetInfo_of ev) SendSuccess] ∧
    sendWorkers s' !! j = Some (k, SIdle).
Proof.
  intros Hz Hw Hcl Hctx.
  assert (Hr : retrySendEvent (config (trigger s)) cl c (Event ev) now
               = (ResultNil, now, [])).
  { unfold retrySendEvent. by replace (Z.to_nat _) with 0%nat by lia. }
  split; [done|].
  eexists. split; [by apply (runEventSend_body_eq s j k ev now c cl)|].
  rewrite Hr. simpl. split.
  - by rewrite app_nil_r.
  - apply list_lookup_insert_eq. by eapply lookup_lt_Some.
Qed.

Lemma zero_retries_commit_witness :
  ∃ s', runEventSend_body 0 0 Background (holding config0 rejecting) = Ok s' ∧
        hist s' = [ObsEnqueue ev1; ObsReceive 1; ObsCommit 1 SendSuccess].
Proof.
  destruct (zero_retries_commit (holding config0 rejecting) 0 0 ev1 0
              Background rejecting) as (_ & s' & H1 & H2 & _);
    [simpl; lia|reflexivity|reflexivity|reflexivity|].
  exists s'. split; [exact H1|exact H2].
Defined.

(** ** The filter worker *)

(** The body of the receive case of [runEventProcess], for the event that
    filter worker [i] holds, in any state of the system. *)
Lemma runEventProcess_body_cases (s : Sys) (i k : nat) (ev : EventRecord) :
  filterWorkers s !! i = Some (k, FGot ev) →
  (filter (trigger s) (Event ev) = FailFilter →
   ∀ to, ∃ s',
     runEventProcess_body i to s = Ok s' ∧
     hist s' = hist s ++ [ObsCommit (OffsetInfo_of ev) FilterReject] ∧
     filterWorkers s' !! i = Some (k, FIdle) ∧
     sendCh (trigger s') = sendCh (trigger s) ∧
     sendWorkers s' = sendWorkers s ∧
     sends (hist s') = sends (hist s)) ∧
  (filter (trigger s) (Event ev) ≠ FailFilter →
   (closed (sendCh (trigger s)) = false →
    Z.of_nat (length (buf (sendCh (trigger s)))) < cap (sendCh (trigger s)) →
    ∃ s',
      runEventProcess_body i None s = Ok s' ∧
      buf (sendCh (trigger s')) = buf (sendCh (trigger s)) ++ [ev] ∧
      filterWorkers s' !! i = Some (k, FIdle) ∧
      hist s' = hist s) ∧
   (∀ j k', closed (sendCh (trigger s)) = false →
    buf (sendCh (trigger s)) = [] →
    sendWorkers s !! j = Some (k', SIdle) →
    ∃ s',
      runEventProcess_body i (Some j) s = Ok s' ∧
      sendWorkers s' !! j = Some (k', SGot ev) ∧
      filterWorkers s' !! i = Some (k, FIdle) ∧
      hist s' = hist s)).
Proof.
  intros Hw.
  assert (Hi : (i < length (filterWorkers s))%nat) by (by eapply lookup_lt_Some).
  split.
  - intros Hfail to. unfold runEventProcess_body, filter_eval.
    rewrite Hw. rewrite decide_True by done. simpl.
    rewrite list_lookup_insert_eq by done.
    eexists. split; [done|]. simpl. split_and!; try done.
    + by apply list_lookup_insert_eq.
    + unfold sends. rewrite count_app. unfold count. simpl. lia.
  - intros Hpass. split.
    + intros Hopen Hroom. unfold runEventProcess_body, filter_eval.
      rewrite Hw. rewrite decide_False by done. simpl.
      rewrite list_lookup_insert_eq by done.
      unfold filter_forward. simpl.
      rewrite list_lookup_insert_eq by done.
      unfold chan_send. rewrite Hopen.
      destruct (Z.ltb_spec (Z.of_nat (length (buf (sendCh (trigger s)))))
                  (cap (sendCh (trigger s)))); [|lia].
      simpl. eexists. split; [done|]. simpl. split_and!; try done.
      rewrite list_insert_insert_eq. by apply list_lookup_insert_eq.
    + intros j k' Hopen Hempty Hj. unfold runEventProcess_body, filter_eval.
      rewrite Hw. rewrite decide_False by done. simpl.
      rewrite list_lookup_insert_eq by done.
      unfold filter_handoff. simpl.
      rewrite list_lookup_insert_eq by done. rewrite Hj.
      unfold chan_handoff. rewrite Hopen, Hempty. simpl.
      eexists. split; [done|]. simpl. split_and!; try done.
      * apply list_lookup_insert_eq. by eapply lookup_lt_Some.
      * rewrite list_insert_insert_eq. by apply list_lookup_insert_eq.
Qed.

(** ** The idle watcher *)

(** The first half of C7: a tick in state [TriggerRunning] with more than
    [SleepDuration] since [lastActive] sets the state to [TriggerSleep]. *)
Lemma runSleepWatch_tick_sleeps now t :
  state t = TriggerRunning →
  SleepDuration t < Sub now (lastActive t) →
  state (runSleepWatch_tick now t) = TriggerSleep.
Proof.
  intros Hs Hd. unfold runSleepWatch_tick. rewrite decide_True by done.
  destruct (Z.ltb_spec (SleepDuration t) (Sub now (lastActive t))); [done|lia].
Qed.

(** C7, second half, on the code: a tick in state [TriggerSleep] changes
    nothing, however short the time since [lastActive]: the assignment of
    [TriggerRunning] stands under the test [t.state == TriggerRunning]. *)
Theorem runSleepWatch_tick_never_wakes (now : Time) (t : Trigger) :
  state t = TriggerSleep →
  Sub now (lastActive t) ≤ SleepDuration t →
  runSleepWatch_tick now t = t ∧ state (runSleepWatch_tick now t) ≠ TriggerRunning.
Proof.
  intros Hs _. unfold runSleepWatch_tick.
  rewrite decide_False by (by rewrite Hs). by rewrite Hs.
Qed.

Lemma runSleepWatch_tick_never_wakes_witness :
  state (runSleepWatch_tick 5 (set_state TriggerSleep (trigger_of pass_all config3)))
  ≠ TriggerRunning.
Proof.
  apply (runSleepWatch_tick_never_wakes 5
           (set_state TriggerSleep (trigger_of pass_all config3))).
  - reflexivity.
  - vm_compute. discriminate.
Defined.

(** ** Construction *)

(** C9: [NewTrigger] with a nil configuration builds the trigger from
    [initConfig] of the empty configuration: state [TriggerCreated], both
    queues empty, open and of capacity [BufferSize] of that configuration.
    [make] needs that capacity not to be negative. *)
Theorem NewTrigger_nil_config (initConfig : Config → Config)
    (SubscriptionFilter : Type) (GetFilter : list SubscriptionFilter → Filter)
    (id : string) (sub : Subscription SubscriptionFilter) (offsetManager : nat) :
  0 ≤ BufferSize (initConfig emptyConfig) →
  ∃ t,
    NewTrigger initConfig SubscriptionFilter GetFilter id None (Some sub)
      offsetManager = Ok t ∧
    config t = initConfig emptyConfig ∧
    state t = TriggerCreated ∧
    GetState t = TriggerCreated ∧
    eventCh t = mkChan [] (BufferSize (initConfig emptyConfig)) false ∧
    sendCh t = mkChan [] (BufferSize (initConfig emptyConfig)) false ∧
    fresh t.
Proof.
  intros Hcap. unfold NewTrigger, make_chan.
  destruct (Z.ltb_spec (BufferSize (initConfig emptyConfig)) 0); [lia|].
  simpl. eexists. split; [done|]. by split_and!.
Qed.

Lemma NewTrigger_nil_config_witness :
  ∃ t,
    NewTrigger (initConfig_defaults config3) string (λ _, pass_all) "id" None
      (Some (mkSubscription string "sub" "http://sink" [])) 0 = Ok t ∧
    cap (eventCh t) = 2 ∧ state t = TriggerCreated.
Proof.
  destruct (NewTrigger_nil_config (initConfig_defaults config3) string
              (λ _, pass_all) "id" (mkSubscription string "sub" "http://sink" []) 0)
    as (t & H1 & H2 & H3 & H4 & H5 & H6 & H7).
  - vm_compute. discriminate.
  - exists t. split; [exact H1|]. rewrite H5. split; [reflexivity|exact H3].
Defined.

(** ** EventArrived *)

Lemma Done_Err c now : Done c now = true → Err c now ≠ ErrNil.
Proof.
  unfold Done, Err, reached.
  destruct (ctx_cancel c) as [tc|], (ctx_deadline c) as [td|]; simpl;
    repeat case_match; try done; intros; discriminate.
Qed.

Lemma delete_snoc {A} (l : list A) x : delete (length l) (l ++ [x]) = l.
Proof. induction l as [|y l IH]; simpl; [done|]. by rewrite IH. Qed.

(** The outcomes of a call of [EventArrived] while the intake channel is
    open, in any state of the system. *)
Lemma EventArrived_cases (c : Context) (now : Time) (ev : EventRecord)
    (branch : ArriveCase) (s : Sys) :
  closed (eventCh (trigger s)) = false →
  match EventArrived c now ev branch s with
  | Ok (s', err) =>
    (err = ErrNil ∧ branch ≠ CaseDone ∧
     hist s' = hist s ++ [ObsEnqueue ev; ObsReceive (OffsetInfo_of ev)] ∧
     arriving s' = arriving s ∧
     (buf (eventCh (trigger s')) = buf (eventCh (trigger s)) ++ [ev] ∨
      ∃ i k, filterWorkers s !! i = Some (k, FIdle) ∧
             filterWorkers s' !! i = Some (k, FGot ev)))
    ∨ (err = Err c now ∧ err ≠ ErrNil ∧ branch = CaseDone ∧
       Done c now = true ∧ s' = s)
  | Blocked =>
    (branch = CaseDone → Done c now = false) ∧
    (branch = CaseSend →
     cap (eventCh (trigger s)) ≤ Z.of_nat (length (buf (eventCh (trigger s)))))
  | Panic _ => False
  end.
Proof.
  intros Hopen. destruct branch as [|i|]; simpl.
  - unfold arrive_enqueue, chan_send. rewrite Hopen.
    destruct (Z.ltb_spec (Z.of_nat (length (buf (eventCh (trigger s)))))
                (cap (eventCh (trigger s)))); simpl; [|done].
    unfold arrive_receive. simpl.
    rewrite list_lookup_middle by done. simpl.
    left. rewrite delete_snoc, <- app_assoc. split_and!; try done. by left.
  - unfold arrive_handoff, chan_handoff. rewrite Hopen.
    destruct (buf (eventCh (trigger s))); simpl; [|done].
    destruct (filterWorkers s !! i) as [[k pc]|] eqn:Hw; [|done].
    destruct pc; try done. simpl.
    unfold arrive_receive. simpl.
    rewrite list_lookup_middle by done. simpl.
    left. rewrite delete_snoc, <- app_assoc. split_and!; try done.
    right. exists i, k. split; [done|].
    apply list_lookup_insert_eq. by eapply lookup_lt_Some.
  - unfold arrive_cancelled. destruct (Done c now) eqn:Hd; simpl; [|done].
    right. split_and!; try done. by apply Done_Err.
Qed.

(** ** The lifecycle state *)

Ltac unfold_ops :=
  unfold step, arrive_enqueue, arrive_handoff, arrive_receive,
    arrive_cancelled, filter_take, filter_done, filter_eval, filter_forward,
    filter_handoff, send_take, send_done, send_retry, send_commit,
    watch_tick, watch_done, Start, stop_begin, stop_end,
    mbind, Outcome_bind, obind, chan_send, chan_recv, chan_handoff,
    chan_close in *.

Ltac crunch := unfold_ops; repeat (case_match; simplify_eq/=); try done.

(** The places that assign [t.state]: the watcher tick, in state
    [TriggerRunning] only; [Start], once the sink client is built; the end
    of [Stop]. *)
Lemma step_state a s s' :
  step a s = Ok s' →
  state (trigger s') = state (trigger s)
  ∨ (∃ w now, a = ActWatchTick w now ∧ state (trigger s) = TriggerRunning)
  ∨ (∃ cl now, a = ActStart (Some cl) now ∧ state (trigger s') = TriggerRunning)
  ∨ (a = ActStopEnd ∧ state (trigger s') = TriggerStopped).
Proof.
  intros H. destruct a; crunch; eauto 10.
  - (* watcher tick *)
    unfold runSleepWatch_tick. repeat case_match; simpl; eauto 10.
Qed.

(** C8 (as it holds): from [TriggerStopped] every step keeps the state,
    except a [Start] whose sink client is built, which sets
    [TriggerRunning]; a call of [Stop] in [TriggerStopped] only writes its
    log line.  From [TriggerDestroyed] the same holds, and the end of a
    [Stop] sets [TriggerStopped]. *)
Theorem stopped_until_started (a : Action) (s s' : Sys) :
  step a s = Ok s' →
  (state (trigger s) = TriggerStopped →
   (state (trigger s') = TriggerStopped
    ∨ ∃ cl now, a = ActStart (Some cl) now ∧ state (trigger s') = TriggerRunning)
   ∧ Stop s = Ok (add_hist [ObsInfo "trigger stop..."] s)) ∧
  (state (trigger s) = TriggerDestroyed →
   state (trigger s') = TriggerDestroyed
   ∨ (∃ cl now, a = ActStart (Some cl) now ∧ state (trigger s') = TriggerRunning)
   ∨ (a = ActStopEnd ∧ state (trigger s') = TriggerStopped)).
Proof.
  intros H. pose proof (step_state a s s' H) as Hs. split.
  - intros Hst. split.
    + destruct Hs as [Hs|[(w & now & _ & Hr)|[Hs|[_ Hs]]]]; eauto.
      * left. congruence.
      * congruence.
    + unfold Stop, stop_begin. simpl. rewrite decide_True by done. simpl.
      rewrite decide_True by done. done.
  - intros Hst.
    destruct Hs as [Hs|[(w & now & _ & Hr)|[Hs|Hs]]]; eauto.
    + left. congruence.
    + congruence.
Qed.

Lemma stop_schedule_stops :
  run stop_schedule (init (trigger_of pass_all config3)) = Ok stopped_sys.
Proof. reflexivity. Qed.

Lemma stopped_until_started_witness :
  Stop stopped_sys = Ok (add_hist [ObsInfo "trigger stop..."] stopped_sys).
Proof.
  apply (stopped_until_started ActStopBegin stopped_sys
           (add_hist [ObsInfo "trigger stop..."] stopped_sys) eq_refl).
  reflexivity.
Defined.

(** C8 (as stated) fails: a trigger stopped by [Stop] is set to
    [TriggerRunning] by the next [Start]; and [Stop] takes a trigger from
    [TriggerDestroyed] to [TriggerStopped]. *)
Lemma stopped_not_terminal :
  ¬ terminal TriggerStopped ∧ ¬ terminal TriggerDestroyed.
Proof.
  split.
  - intros H.
    specialize (H (ActStart (Some acking) 9) stopped_sys _ eq_refl eq_refl).
    discriminate H.
  - intros H.
    specialize (H ActStopEnd
                  (mkSys (set_state TriggerDestroyed (trigger_of pass_all config3))
                     [] [] [] [] [] 1 [])
                  _ eq_refl eq_refl).
    discriminate H.
Qed.

(** ** The pipeline invariant *)

Lemma queued_app o a b : queued o (a ++ b) = (queued o a + queued o b)%nat.
Proof. unfold queued. by rewrite List.filter_app, length_app. Qed.

Lemma queued_cons o ev l : queued o (ev :: l) = (unit_of o ev + queued o l)%nat.
Proof. unfold queued, unit_of. simpl. by destruct (bool_decide _). Qed.

Lemma queued_delete o l k ev :
  l !! k = Some ev → (queued o (delete k l) + unit_of o ev)%nat = queued o l.
Proof.
  revert k. induction l as [|x l IH]; intros [|k] H; simplify_eq/=.
  - rewrite queued_cons. lia.
  - rewrite !queued_cons. specialize (IH k H). lia.
Qed.

Lemma sum_insert {A} (f : A → nat) (ws : list A) i w w' :
  ws !! i = Some w →
  (sum_list_with f (<[i := w']> ws) + f w)%nat = (sum_list_with f ws + f w')%nat.
Proof.
  revert i. induction ws as [|x ws IH]; intros [|i] H; simplify_eq/=.
  - lia.
  - specialize (IH i H). lia.
Qed.

Lemma sum_replicate_zero {A} (f : A → nat) n w :
  f w = 0%nat → sum_list_with f (replicate n w) = 0%nat.
Proof. intros H. induction n as [|n IH]; simpl; [done|]. by rewrite H, IH. Qed.

Lemma runSleepWatch_tick_queues now t :
  eventCh (runSleepWatch_tick now t) = eventCh t ∧
  sendCh (runSleepWatch_tick now t) = sendCh t ∧
  filter (runSleepWatch_tick now t) = filter t.
Proof. unfold runSleepWatch_tick. by repeat case_match. Qed.

Lemma delta_silent s s' :
  hist s' = hist s →
  (∀ o, inflight o s' = inflight o s) →
  arriving s' = arriving s →
  delta_ok s s'.
Proof.
  intros Hh Hi Ha. exists []. rewrite app_nil_r.
  split_and!; [done|..].
  - intros o. rewrite Hi. unfold commits, accepted, count. simpl. lia.
  - intros o. rewrite Ha. unfold receives, accepted, count. simpl. lia.
  - by right.
Qed.

Ltac insert_facts o :=
  repeat match goal with
  | H : ?ws !! ?i = Some ?w |- context [sum_list_with (held_filter o) (<[?i := ?w']> ?ws)] =>
    let F := fresh "F" in
    pose proof (sum_insert (held_filter o) ws i w w' H) as F;
    generalize dependent (sum_list_with (held_filter o) (<[i := w']> ws)); intros
  | H : ?ws !! ?i = Some ?w |- context [sum_list_with (held_send o) (<[?i := ?w']> ?ws)] =>
    let F := fresh "F" in
    pose proof (sum_insert (held_send o) ws i w w' H) as F;
    generalize dependent (sum_list_with (held_send o) (<[i := w']> ws)); intros
  end.

Ltac count_it o :=
  unfold inflight, commits, accepted, receives, count; simpl;
  repeat match goal with
  | H : buf ?c = _ |- context [buf ?c] => rewrite H
  end;
  insert_facts o;
  unfold held_filter, held_send in *; simpl in *;
  rewrite ?queued_app, ?queued_cons;
  change (queued o []) with 0%nat;
  unfold unit_of in *; simpl;
  repeat case_bool_decide; simpl; try lia.

(** Every step is a step of the pipeline. *)
Lemma step_delta a s s' : step a s = Ok s' → delta_ok s s'.
Proof.
  intros H. destruct a.
  - (* ActArriveEnqueue *)
    crunch. exists [ObsEnqueue ev]. split_and!; [done|..|by eauto];
      intros o; count_it o.
  - (* ActArriveHandoff *)
    crunch. exists [ObsEnqueue ev]. split_and!; [done|..|by eauto];
      intros o; count_it o.
  - (* ActArriveReceive *)
    crunch. exists [ObsReceive (OffsetInfo_of e)].
    split_and!; [done|..|by right]; intros o.
    + count_it o.
    + pose proof (queued_delete o _ _ _ H0). count_it o.
  - crunch. by apply delta_silent.
  - crunch; apply delta_silent; try done; intros o; count_it o.
  - crunch; apply delta_silent; try done; intros o; count_it o.
  - crunch.
    + exists [ObsCommit (OffsetInfo_of ev) FilterReject].
      split_and!; [done|..|by right]; intros o; count_it o.
    + apply delta_silent; try done; intros o; count_it o.
  - crunch; apply delta_silent; try done; intros o; count_it o.
  - crunch; apply delta_silent; try done; intros o; count_it o.
  - crunch; apply delta_silent; try done; intros o; count_it o.
  - crunch; apply delta_silent; try done; intros o; count_it o.
  - (* ActSendRetry *)
    crunch.
    match goal with
    | H : retrySendEvent ?cfg ?cl ?c ?e ?now = (_, _, ?tr) |- _ =>
      assert (Hc : ∀ o, commits o tr = 0%nat)
        by (intros o; pose proof (retrySendEvent_no_commit cfg cl c e now o) as X;
            by rewrite H in X);
      assert (He : ∀ o, accepted o tr = 0%nat)
        by (intros o; pose proof (retrySendEvent_no_enqueue cfg cl c e now o) as X;
            by rewrite H in X);
      assert (Hr : ∀ o, receives o tr = 0%nat)
        by (intros o; pose proof (retrySendEvent_no_receive cfg cl c e now o) as X;
            by rewrite H in X)
    end.
    eexists. split_and!; [done|..|by right]; intros o.
    + rewrite Hc, He. count_it o.
    + rewrite He, Hr. simpl. lia.
  - (* ActSendCommit *)
    crunch. eexists. split_and!; [done|..|right]; intros o;
      unfold commit_after_retry; destruct (notNil err); count_it o.
  - (* ActWatchTick *)
    crunch; apply delta_silent; try done; intros o.
    unfold inflight. simpl.
    destruct (runSleepWatch_tick_queues now (trigger s)) as (-> & -> & _). done.
  - crunch; apply delta_silent; try done; intros o; count_it o.
  - (* ActStart *)
    crunch; apply delta_silent; try done; intros o.
    unfold inflight. simpl. rewrite !sum_list_with_app.
    rewrite !sum_replicate_zero by done. lia.
  - (* ActStopBegin *)
    crunch; (eexists; split_and!; [done|..|by right]; intros o; count_it o).
  - (* ActStopEnd *)
    crunch; (eexists; split_and!; [done|..|by right]; intros o; count_it o).
Qed.

Lemma count_pos_lookup f l :
  (0 < count f l)%nat → ∃ j x, l !! j = Some x ∧ f x = true.
Proof.
  unfold count. induction l as [|x l IH]; simpl; [lia|].
  destruct (f x) eqn:Hx.
  - intros _. by exists 0%nat, x.
  - intros H. destruct (IH H) as (j & y & Hj & Hy). by exists (S j), y.
Qed.

Lemma lookup_count_pos f l k x :
  l !! k = Some x → f x = true → (0 < count f l)%nat.
Proof.
  unfold count. revert k. induction l as [|y l IH]; intros [|k] H Hx; simplify_eq/=.
  - rewrite Hx. simpl. lia.
  - specialize (IH k H Hx). destruct (f y); simpl; lia.
Qed.

Lemma count_le_one_lookup f l i j x y :
  (count f l ≤ 1)%nat → l !! i = Some x → l !! j = Some y →
  f x = true → f y = true → i = j.
Proof.
  unfold count. revert i j.
  induction l as [|z l IH]; intros [|i] [|j] Hc Hi Hj Hx Hy; simplify_eq/=; try done.
  - rewrite Hx in Hc. simpl in Hc.
    pose proof (lookup_count_pos f l j y Hj Hy). unfold count in *. lia.
  - rewrite Hy in Hc. simpl in Hc.
    pose proof (lookup_count_pos f l i x Hi Hx). unfold count in *. lia.
  - f_equal. apply (IH i j); try done. destruct (f z); simpl in *; lia.
Qed.

Lemma accepted_enqueued o h :
  (0 < accepted o h)%nat →
  ∃ j ev, h !! j = Some (ObsEnqueue ev) ∧ OffsetInfo_of ev = o.
Proof.
  intros H. destruct (count_pos_lookup _ _ H) as (j & x & Hj & Hx).
  destruct x; simpl in Hx; try done.
  exists j, ev. split; [done|]. by case_bool_decide.
Qed.

(** A step of the pipeline keeps the invariant. *)
Lemma delta_inv s s' : delta_ok s s' → pipeline_inv s → pipeline_inv s'.
Proof.
  intros (ext & Hh & Hi & Ha & Hshape) (I1 & I2 & I3).
  unfold pipeline_inv. rewrite Hh.
  assert (J1 : ∀ o, (commits o (hist s ++ ext) + inflight o s'
                     = accepted o (hist s ++ ext))%nat).
  { intros o. unfold commits, accepted in *. rewrite !count_app.
    specialize (Hi o). specialize (I1 o). lia. }
  assert (J2 : ∀ o, (receives o (hist s ++ ext) + queued o (arriving s')
                     = accepted o (hist s ++ ext))%nat).
  { intros o. unfold receives, accepted in *. rewrite !count_app.
    specialize (Ha o). specialize (I2 o). lia. }
  split_and!; [done|done|].
  intros i o Hio.
  destruct (decide (i < length (hist s))%nat) as [Hlt|Hge].
  - rewrite !lookup_app_l in Hio by done.
    destruct (I3 i o Hio) as (j & ev & Hj & Hl & Ho).
    exists j, ev. split_and!; try done. by apply lookup_app_l_Some.
  - rewrite !lookup_app_r in Hio by lia.
    assert (Hacc : (0 < accepted o (hist s))%nat).
    { destruct Hshape as [[ev ->]|Hno].
      - destruct (i - length (hist s))%nat as [|n]; simpl in Hio.
        + destruct Hio as [Hio|[p Hio]]; discriminate.
        + destruct Hio as [Hio|[p Hio]]; discriminate.
      - specialize (Hno o). specialize (Hi o). specialize (Ha o).
        specialize (I1 o). specialize (I2 o).
        destruct Hio as [Hio|[p Hio]].
        + assert (0 < receives o ext)%nat.
          { eapply lookup_count_pos; [done|]. simpl. by apply bool_decide_eq_true_2. }
          lia.
        + assert (0 < commits o ext)%nat.
          { eapply lookup_count_pos; [done|]. simpl. by apply bool_decide_eq_true_2. }
          lia. }
    destruct (accepted_enqueued o _ Hacc) as (j & ev & Hj & Ho).
    exists j, ev. split_and!; try done.
    + apply lookup_lt_Some in Hj. lia.
    + by apply lookup_app_l_Some.
Qed.

Lemma init_inv t : fresh t → pipeline_inv (init t).
Proof.
  intros [He Hs]. split_and!.
  - intros o. unfold inflight. simpl. by rewrite He, Hs.
  - done.
  - intros i o [H|[p H]]; simpl in H; by rewrite lookup_nil in H.
Qed.

Lemma run_inv sched s s' : run sched s = Ok s' → pipeline_inv s → pipeline_inv s'.
Proof.
  revert s. induction sched as [|a sched IH]; intros s H Hinv; simpl in H.
  - by simplify_eq.
  - destruct (step a s) as [s1| |] eqn:Hstep; simpl in H; try done.
    apply (IH s1 H). apply (delta_inv s s1); [|done]. by apply (step_delta a).
Qed.

Lemma accepted_absent o h : o ∉ accepted_positions h → accepted o h = 0%nat.
Proof.
  unfold accepted_positions, accepted, count.
  induction h as [|x h IH]; simpl; [done|].
  destruct x; simpl; auto.
  intros Hn. apply not_elem_of_cons in Hn as [Hne Hn].
  rewrite bool_decide_eq_false_2 by done. auto.
Qed.

Lemma accepted_NoDup o h : NoDup (accepted_positions h) → (accepted o h ≤ 1)%nat.
Proof.
  unfold accepted_positions, accepted, count.
  induction h as [|x h IH]; simpl; [lia|].
  destruct x; simpl; auto.
  intros Hn. apply NoDup_cons in Hn as [Hx Hn].
  case_bool_decide; simpl.
  - subst o. pose proof (accepted_absent _ _ Hx) as Hz.
    unfold accepted, count in Hz. lia.
  - auto.
Qed.

Lemma quiescent_inflight o s : quiescent s → inflight o s = 0%nat.
Proof.
  intros (He & Hs & _ & _ & Hf & Hw). unfold inflight. rewrite He, Hs.
  assert (sum_list_with (held_filter o) (filterWorkers s) = 0%nat) as ->.
  { induction Hf as [|w ws Hw' _ IH]; simpl; [done|].
    rewrite IH. unfold held_filter. by destruct Hw' as [->| ->]. }
  assert (sum_list_with (held_send o) (sendWorkers s) = 0%nat) as ->.
  { induction Hw as [|w ws Hw' _ IH]; simpl; [done|].
    rewrite IH. unfold held_send. by destruct Hw' as [->| ->]. }
  done.
Qed.

(** C1 (as it holds): in every run from a fresh trigger in which the
    accepted events have distinct positions, for every position: the commits
    and the events still in the pipeline add up to the accepted events, so
    that a position is committed at most once, by one call on one of the
    three paths, and exactly once when the system is quiescent; and every
    commit comes after the enqueue of its event by [EventArrived]. *)
Theorem commit_at_most_once (t : Trigger) (sched : list Action) (s : Sys)
    (o : OffsetInfo) :
  fresh t →
  run sched (init t) = Ok s →
  NoDup (accepted_positions (hist s)) →
  (commits o (hist s) + inflight o s = accepted o (hist s))%nat ∧
  (commits o (hist s) ≤ 1)%nat ∧
  (∀ i j p q, hist s !! i = Some (ObsCommit o p) →
              hist s !! j = Some (ObsCommit o q) → i = j ∧ p = q) ∧
  (∀ i p, hist s !! i = Some (ObsCommit o p) → after_enqueue (hist s) i o) ∧
  (quiescent s → (0 < accepted o (hist s))%nat → commits o (hist s) = 1%nat).
Proof.
  intros Hfresh Hrun Hnd.
  destruct (run_inv sched (init t) s Hrun (init_inv t Hfresh)) as (I1 & I2 & I3).
  pose proof (accepted_NoDup o _ Hnd) as Hacc.
  assert (Hle : (commits o (hist s) ≤ 1)%nat) by (specialize (I1 o); lia).
  split_and!; try done.
  - intros i j p q Hi Hj.
    assert (i = j) as ->.
    { apply (count_le_one_lookup (isCommit o) (hist s) i j _ _ Hle Hi Hj);
        simpl; by apply bool_decide_eq_true_2. }
    split; [done|]. congruence.
  - intros i p Hi. apply I3. right. by exists p.
  - intros Hq Hpos. specialize (I1 o). rewrite (quiescent_inflight o s Hq) in I1. lia.
Qed.

Ltac all_idle :=
  repeat first [apply Forall_nil_2
               |apply Forall_cons_2; [first [by left|by right]|]].

Lemma commit_at_most_once_witness :
  commits 1 (hist (sys_after deliver_schedule (trigger_of pass_all config3))) = 1%nat.
Proof.
  apply (commit_at_most_once (trigger_of pass_all config3) deliver_schedule
           (sys_after deliver_schedule (trigger_of pass_all config3)) 1).
  - split; reflexivity.
  - vm_compute. reflexivity.
  - vm_compute. apply NoDup_cons. split; [apply not_elem_of_nil|apply NoDup_nil_2].
  - unfold quiescent. vm_compute. split_and!; try reflexivity; all_idle.
  - vm_compute. lia.
Defined.

(** C1 (as stated) fails.  In [race_schedule] the filter worker commits the
    position before [EventArrived] registers it: the run ends quiescent with
    the commit ahead of the registration in the history.  In
    [abandon_schedule] an accepted and registered event is still in the
    intake queue when [Stop] ends: every worker has returned and the
    position is never committed. *)
Lemma commit_before_receive :
  (∃ s, run race_schedule (init (trigger_of drop_all config3)) = Ok s ∧
        quiescent s ∧
        hist s = [ObsEnqueue ev1; ObsCommit 1 FilterReject; ObsReceive 1] ∧
        ¬ committed_once_after_receive (hist s)) ∧
  (∃ s, run abandon_schedule (init (trigger_of pass_all config3)) = Ok s ∧
        all_exited s = true ∧
        state (trigger s) = TriggerStopped ∧
        buf (eventCh (trigger s)) = [ev1] ∧
        ¬ committed_once_after_receive (hist s)).
Proof.
  split.
  - exists (sys_after race_schedule (trigger_of drop_all config3)).
    split; [vm_compute; reflexivity|]. split.
    { unfold quiescent. vm_compute. split_and!; try reflexivity; all_idle. }
    split; [vm_compute; reflexivity|].
    intros H. destruct (H 1) as [_ Ho]; [vm_compute; lia|].
    destruct (Ho 1%nat FilterReject) as (j & Hj & Hl); [vm_compute; reflexivity|].
    destruct j as [|j]; [vm_compute in Hl; discriminate Hl|lia].
  - exists (sys_after abandon_schedule (trigger_of pass_all config3)).
    split_and!; try (vm_compute; reflexivity).
    intros H. destruct (H 1) as [Hc _]; [vm_compute; lia|].
    vm_compute in Hc. discriminate Hc.
Qed.

(** ** Only events that pass the filter reach the sink *)

Lemma retrySendEvent_passes f config cl c e now :
  f e ≠ FailFilter →
  Forall (obs_passes f) (retrySendEvent config cl c e now).2.
Proof.
  intros Hp.
  destruct (retrySendEvent_shape config cl c e now) as (m & acked & H).
  simpl in H. destruct H as (_ & _ & _ & _ & _ & _ & _ & H).
  eapply Forall_impl; [exact H|].
  intros [] Hx; simpl in *; try done. by destruct Hx as [_ ->].
Qed.

Ltac pass_facts :=
  repeat match goal with
  | H : buf ?c = _, HF : Forall _ (buf ?c) |- _ => rewrite H in HF
  | HF : Forall _ (_ :: _) |- _ => apply Forall_cons_1 in HF as [? ?]
  end;
  try match goal with
  | H : filterWorkers ?s !! _ = Some _, HF : Forall _ (filterWorkers ?s) |- _ =>
    let F := fresh "F" in
    pose proof (Forall_lookup_1 _ _ _ _ HF H) as F;
    unfold filter_pc_passes in F; simpl in F
  end;
  try match goal with
  | H : sendWorkers ?s !! _ = Some _, HF : Forall _ (sendWorkers ?s) |- _ =>
    let F := fresh "F" in
    pose proof (Forall_lookup_1 _ _ _ _ HF H) as F;
    unfold send_pc_passes in F; simpl in F
  end.

Ltac pass_solve :=
  repeat first
    [ done
    | apply Forall_nil_2
    | apply Forall_insert
    | apply Forall_replicate
    | apply Forall_app_2
    | apply Forall_cons_2
    | match goal with
      | |- context [notNil ?e] => destruct (notNil e)
      | H : retrySendEvent ?cfg ?cl ?c ?e ?now = (_, _, ?l) |- Forall _ ?l =>
        let X := fresh in
        pose proof (retrySendEvent_passes _ cfg cl c e now ltac:(eassumption)) as X;
        rewrite H in X; exact X
      | |- context [runSleepWatch_tick ?now ?t] =>
        let E1 := fresh in let E2 := fresh in let E3 := fresh in
        destruct (runSleepWatch_tick_queues now t) as (E1 & E2 & E3);
        rewrite ?E1, ?E2, ?E3
      end
    | progress (unfold filter_pc_passes, send_pc_passes, obs_passes; simpl) ].

Lemma step_pass f a s s' : step a s = Ok s' → pass_inv f s → pass_inv f s'.
Proof.
  intros H (Hf & Hq & Hfw & Hsw & Hh). unfold pass_inv.
  destruct a; crunch; pass_facts; split_and!; simpl; try done; pass_solve.
Qed.

Lemma init_pass t : fresh t → pass_inv (filter t) (init t).
Proof.
  intros [_ Hs]. unfold pass_inv. simpl. rewrite Hs. by split_and!.
Qed.

Lemma run_pass f sched s s' : run sched s = Ok s' → pass_inv f s → pass_inv f s'.
Proof.
  revert s. induction sched as [|a sched IH]; intros s H Hinv; simpl in H.
  - by simplify_eq.
  - destruct (step a s) as [s1| |] eqn:Hstep; simpl in H; try done.
    apply (IH s1 H). by apply (step_pass f a s).
Qed.

(** C4: in every run from a fresh trigger, the sink is only ever sent
    events that pass the filter; and for the event that a filter worker has
    received: if the filter says [FailFilter], the body of the loop commits
    the position at once, with the worker back in its [select] and the send
    queue, the send workers and the sink untouched; otherwise the event goes
    as it is to the end of the send queue when there is room, or into the
    hands of a waiting send worker, and nothing is committed. *)
Theorem runEventProcess_drops_or_forwards (t : Trigger) (sched : list Action)
    (s : Sys) (i k : nat) (ev : EventRecord) :
  fresh t →
  run sched (init t) = Ok s →
  filterWorkers s !! i = Some (k, FGot ev) →
  (∀ now c e, ObsSend now c e ∈ hist s → filter t e ≠ FailFilter) ∧
  (filter t (Event ev) = FailFilter →
   ∀ to, ∃ s',
     runEventProcess_body i to s = Ok s' ∧
     hist s' = hist s ++ [ObsCommit (OffsetInfo_of ev) FilterReject] ∧
     filterWorkers s' !! i = Some (k, FIdle) ∧
     sendCh (trigger s') = sendCh (trigger s) ∧
     sendWorkers s' = sendWorkers s ∧
     sends (hist s') = sends (hist s)) ∧
  (filter t (Event ev) ≠ FailFilter →
   (closed (sendCh (trigger s)) = false →
    Z.of_nat (length (buf (sendCh (trigger s)))) < cap (sendCh (trigger s)) →
    ∃ s',
      runEventProcess_body i None s = Ok s' ∧
      buf (sendCh (trigger s')) = buf (sendCh (trigger s)) ++ [ev] ∧
      filterWorkers s' !! i = Some (k, FIdle) ∧
      hist s' = hist s) ∧
   (∀ j k', closed (sendCh (trigger s)) = false →
    buf (sendCh (trigger s)) = [] →
    sendWorkers s !! j = Some (k', SIdle) →
    ∃ s',
      runEventProcess_body i (Some j) s = Ok s' ∧
      sendWorkers s' !! j = Some (k', SGot ev) ∧
      filterWorkers s' !! i = Some (k, FIdle) ∧
      hist s' = hist s)).
Proof.
  intros Hfresh Hrun Hw.
  destruct (run_pass (filter t) sched (init t) s Hrun (init_pass t Hfresh))
    as (Hf & _ & _ & _ & Hh).
  split.
  - intros now c e Hin.
    apply (proj1 (Forall_forall _ _) Hh) in Hin. exact Hin.
  - rewrite <- Hf. by apply runEventProcess_body_cases.
Qed.

Lemma runEventProcess_drops_or_forwards_witness :
  (∃ s', runEventProcess_body 0 None (filtering drop_all) = Ok s' ∧
         hist s' = [ObsEnqueue ev1; ObsReceive 1; ObsCommit 1 FilterReject]) ∧
  (∃ s', runEventProcess_body 0 None (filtering pass_all) = Ok s' ∧
         buf (sendCh (trigger s')) = [ev1]).
Proof.
  split.
  - destruct (runEventProcess_drops_or_forwards (trigger_of drop_all config3)
                receive_schedule (filtering drop_all) 0 0 ev1)
      as (_ & H & _).
    + split; reflexivity.
    + vm_compute. reflexivity.
    + reflexivity.
    + destruct (H eq_refl None) as (s' & H1 & H2 & _).
      exists s'. split; [exact H1|exact H2].
  - destruct (runEventProcess_drops_or_forwards (trigger_of pass_all config3)
                receive_schedule (filtering pass_all) 0 0 ev1)
      as (_ & _ & H).
    + split; reflexivity.
    + vm_compute. reflexivity.
    + reflexivity.
    + destruct H as [H _]; [discriminate|].
      destruct H as (s' & H1 & H2 & _); [reflexivity|reflexivity|].
      exists s'. split; [exact H1|exact H2].
Defined.

(** C5: in every run from a fresh trigger, every registration with
    [EventReceive] comes after the enqueue of an event of that position; and
    while the intake channel is open, a call of [EventArrived] that returns
    has either put the event into the queue (or into the hands of a waiting
    filter worker) and then at once registered its position, with result
    nil, or has taken the [ctx.Done()] case, which needs the context to be
    done, and has returned [ctx.Err()], which is not nil, with nothing
    enqueued and nothing registered: the system is as it was.  The call
    does not panic, and it blocks only if the context is not done and the
    queue has no room. *)
Theorem EventArrived_outcomes (t : Trigger) (sched : list Action) (s : Sys)
    (c : Context) (now : Time) (ev : EventRecord) (branch : ArriveCase) :
  fresh t →
  run sched (init t) = Ok s →
  closed (eventCh (trigger s)) = false →
  (∀ i o, hist s !! i = Some (ObsReceive o) → after_enqueue (hist s) i o) ∧
  match EventArrived c now ev branch s with
  | Ok (s', err) =>
    (err = ErrNil ∧ branch ≠ CaseDone ∧
     hist s' = hist s ++ [ObsEnqueue ev; ObsReceive (OffsetInfo_of ev)] ∧
     arriving s' = arriving s ∧
     (buf (eventCh (trigger s')) = buf (eventCh (trigger s)) ++ [ev] ∨
      ∃ i k, filterWorkers s !! i = Some (k, FIdle) ∧
             filterWorkers s' !! i = Some (k, FGot ev)))
    ∨ (err = Err c now ∧ err ≠ ErrNil ∧ branch = CaseDone ∧
       Done c now = true ∧ s' = s)
  | Blocked =>
    (branch = CaseDone → Done c now = false) ∧
    (branch = CaseSend →
     cap (eventCh (trigger s)) ≤ Z.of_nat (length (buf (eventCh (trigger s)))))
  | Panic _ => False
  end.
Proof.
  intros Hfresh Hrun Hopen. split.
  - destruct (run_inv sched (init t) s Hrun (init_inv t Hfresh)) as (_ & _ & I3).
    intros i o Hi. apply I3. by left.
  - by apply EventArrived_cases.
Qed.

Lemma EventArrived_outcomes_witness :
  match EventArrived (mkContext (Some 1) None) 2 ev1 CaseDone
          (sys_after receive_schedule (trigger_of pass_all config3)) with
  | Ok (s', err) =>
    err = ErrCanceled ∧ s' = sys_after receive_schedule (trigger_of pass_all config3)
  | _ => False
  end.
Proof.
  destruct (EventArrived_outcomes (trigger_of pass_all config3) receive_schedule
              (sys_after receive_schedule (trigger_of pass_all config3))
              (mkContext (Some 1) None) 2 ev1 CaseDone) as [_ H].
  - split; reflexivity.
  - vm_compute. reflexivity.
  - vm_compute. reflexivity.
  - destruct (EventArrived (mkContext (Some 1) None) 2 ev1 CaseDone
                (sys_after receive_schedule (trigger_of pass_all config3)))
      as [[s' err]| |].
    + destruct H as [(_ & Hb & _)|(He & _ & _ & _ & Hs)].
      * exfalso. apply Hb. reflexivity.
      * split; [exact He|exact Hs].
    + destruct H as [H _]. specialize (H eq_refl). vm_compute in H. discriminate H.
    + exact H.
Defined.

(** * Further properties of the trigger *)

(** ** The queues stay within their capacity *)

Lemma step_within a s s' :
  step a s = Ok s' →
  cap (eventCh (trigger s')) = cap (eventCh (trigger s)) ∧
  cap (sendCh (trigger s')) = cap (sendCh (trigger s)) ∧
  (within (eventCh (trigger s)) → within (eventCh (trigger s'))) ∧
  (within (sendCh (trigger s)) → within (sendCh (trigger s'))).
Proof.
  intros H. unfold within.
  destruct a; crunch;
    repeat match goal with
    | |- context [runSleepWatch_tick ?now ?t] =>
      let E1 := fresh in let E2 := fresh in
      destruct (runSleepWatch_tick_queues now t) as (E1 & E2 & _);
      rewrite ?E1, ?E2
    | H : buf ?c = _ |- context [buf ?c] => rewrite H
    end;
    split_and!; try done; simpl; rewrite ?length_app; simpl; intros; lia.
Qed.

(** X1: in every run from a trigger with empty queues of capacity at least
    0, the capacities of both queues stay what they were made with and
    neither queue ever holds more events than its capacity. *)
Theorem queues_within_capacity (t : Trigger) (sched : list Action) (s : Sys) :
  fresh t →
  0 ≤ cap (eventCh t) →
  0 ≤ cap (sendCh t) →
  run sched (init t) = Ok s →
  cap (eventCh (trigger s)) = cap (eventCh t) ∧
  cap (sendCh (trigger s)) = cap (sendCh t) ∧
  Z.of_nat (length (buf (eventCh (trigger s)))) ≤ cap (eventCh t) ∧
  Z.of_nat (length (buf (sendCh (trigger s)))) ≤ cap (sendCh t).
Proof.
  intros [He Hs] Hce Hcs Hrun.
  assert (Hgen : ∀ sched s0 s1, run sched s0 = Ok s1 →
            within (eventCh (trigger s0)) → within (sendCh (trigger s0)) →
            cap (eventCh (trigger s1)) = cap (eventCh (trigger s0)) ∧
            cap (sendCh (trigger s1)) = cap (sendCh (trigger s0)) ∧
            within (eventCh (trigger s1)) ∧ within (sendCh (trigger s1))).
  { clear. induction sched as [|a sched IH]; intros s0 s1 H W1 W2; simpl in H.
    - by simplify_eq.
    - destruct (step a s0) as [s2| |] eqn:Hstep; simpl in H; try done.
      destruct (step_within a s0 s2 Hstep) as (C1 & C2 & K1 & K2).
      destruct (IH s2 s1 H (K1 W1) (K2 W2)) as (D1 & D2 & D3 & D4).
      split_and!; try done; congruence. }
  destruct (Hgen sched (init t) s Hrun) as (D1 & D2 & D3 & D4).
  - unfold within. simpl. rewrite He. simpl. lia.
  - unfold within. simpl. rewrite Hs. simpl. lia.
  - simpl in *. unfold within in *. split_and!; try done; lia.
Qed.

Lemma queues_within_capacity_witness :
  Z.of_nat (length (buf (sendCh (trigger
     (sys_after stuck_schedule (trigger_of pass_all config_small)))))) ≤ 1.
Proof.
  destruct (queues_within_capacity (trigger_of pass_all config_small)
              stuck_schedule
              (sys_after stuck_schedule (trigger_of pass_all config_small)))
    as (_ & _ & _ & H).
  - split; reflexivity.
  - vm_compute. discriminate.
  - vm_compute. discriminate.
  - vm_compute. reflexivity.
  - exact H.
Defined.

(** ** Only Start wakes a sleeping trigger *)

Lemma step_lastActive a s s' :
  step a s = Ok s' → is_start a = false →
  lastActive (trigger s') = lastActive (trigger s).
Proof.
  intros H Hn. destruct a; crunch.
  unfold runSleepWatch_tick. by repeat case_match.
Qed.

Lemma step_asleep a s s' :
  step a s = Ok s' → is_start a = false →
  state (trigger s) = TriggerSleep ∨ state (trigger s) = TriggerStopped →
  state (trigger s') = TriggerSleep ∨ state (trigger s') = TriggerStopped.
Proof.
  intros H Hn Hs.
  destruct (step_state a s s' H) as [E|[(w & now & _ & E)|[(cl & now & -> & _)|[_ E]]]].
  - by rewrite E.
  - destruct Hs; congruence.
  - discriminate Hn.
  - by right.
Qed.

(** X2: [lastActive] is assigned by [Start] and by nothing else: no step of
    a worker, of the watcher, of [EventArrived] or of [Stop] refreshes it.
    So a trigger in [TriggerSleep] stays there, whatever events arrive and
    are delivered, until [Stop] ends or a [Start] builds its sink client. *)
Theorem asleep_until_started (sched : list Action) (s s' : Sys) :
  run sched s = Ok s' →
  no_start sched →
  lastActive (trigger s') = lastActive (trigger s) ∧
  (state (trigger s) = TriggerSleep →
   state (trigger s') = TriggerSleep ∨ state (trigger s') = TriggerStopped).
Proof.
  intros Hrun Hno.
  assert (Hgen : lastActive (trigger s') = lastActive (trigger s) ∧
            (state (trigger s) = TriggerSleep ∨ state (trigger s) = TriggerStopped →
             state (trigger s') = TriggerSleep ∨ state (trigger s') = TriggerStopped)).
  { revert s Hrun. induction Hno as [|a sched Ha _ IH]; intros s Hrun; simpl in Hrun.
    - by simplify_eq.
    - destruct (step a s) as [s1| |] eqn:Hstep; simpl in Hrun; try done.
      destruct (IH s1 Hrun) as [L1 L2]. split.
      + rewrite L1. by apply (step_lastActive a).
      + intros Hs. apply L2. by apply (step_asleep a s). }
  destruct Hgen as [L1 L2]. split; [done|]. intros Hs. apply L2. by left.
Qed.

Lemma asleep_until_started_witness :
  state (trigger (run_from busy_schedule asleep_sys)) = TriggerSleep
  ∨ state (trigger (run_from busy_schedule asleep_sys)) = TriggerStopped.
Proof.
  apply (asleep_until_started busy_schedule asleep_sys).
  - vm_compute. reflexivity.
  - repeat (apply Forall_cons_2; [reflexivity|]). apply Forall_nil_2.
  - reflexivity.
Defined.

(** ** Stop before Start *)

Lemma step_unstarted a s s' :
  step a s = Ok s' → is_start a = false →
  stop (trigger s) = None ∧ stopping s = 0%nat ∧ state (trigger s) = TriggerCreated →
  stop (trigger s') = None ∧ stopping s' = 0%nat ∧ state (trigger s') = TriggerCreated.
Proof.
  intros H Hn (H1 & H2 & H3). destruct a; crunch.
  unfold runSleepWatch_tick. rewrite decide_False by (by rewrite H3). done.
Qed.

(** X3: a trigger built by [NewTrigger] has no cancel function until a
    [Start] builds its sink client; until then [Stop] panics at [t.stop()],
    whatever calls of [EventArrived] and failed calls of [Start] came
    before. *)
Theorem Stop_before_Start_panics (initConfig : Config → Config)
    (SubscriptionFilter : Type) (GetFilter : list SubscriptionFilter → Filter)
    (id : string) (cfg : option Config)
    (sub : option (Subscription SubscriptionFilter)) (offsetManager : nat)
    (t : Trigger) (sched : list Action) (s : Sys) :
  NewTrigger initConfig SubscriptionFilter GetFilter id cfg sub offsetManager = Ok t →
  run sched (init t) = Ok s →
  no_start sched →
  state (trigger s) = TriggerCreated ∧
  step ActStopBegin s = Panic "nil pointer dereference" ∧
  Stop s = Panic "nil pointer dereference".
Proof.
  intros Hnew Hrun Hno.
  assert (Hinit : stop t = None ∧ state t = TriggerCreated).
  { unfold NewTrigger, make_chan in Hnew. destruct sub; [|done].
    repeat case_match; simplify_eq/=; done. }
  assert (Hgen : ∀ s0, run sched s0 = Ok s →
            stop (trigger s0) = None ∧ stopping s0 = 0%nat ∧
            state (trigger s0) = TriggerCreated →
            stop (trigger s) = None ∧ stopping s = 0%nat ∧
            state (trigger s) = TriggerCreated).
  { clear Hrun. induction Hno as [|a sched Ha _ IH]; intros s0 Hrun H0; simpl in Hrun.
    - by simplify_eq.
    - destruct (step a s0) as [s1| |] eqn:Hstep; simpl in Hrun; try done.
      apply (IH s1 Hrun). by apply (step_unstarted a s0). }
  destruct (Hgen (init t) Hrun) as (H1 & H2 & H3).
  { by destruct Hinit. }
  split; [done|].
  assert (Hb : stop_begin s = Panic "nil pointer dereference").
  { unfold stop_begin. simpl. rewrite decide_False by (by rewrite H3). by rewrite H1. }
  split; [done|]. unfold Stop. by rewrite Hb.
Qed.

Lemma Stop_before_Start_panics_witness :
  ∃ t, NewTrigger (initConfig_defaults config3) string (λ _, pass_all) "id" None
         (Some (mkSubscription string "sub" "http://sink" [])) 0 = Ok t ∧
       Stop (sys_after [ActArriveEnqueue ev1; ActStart None 3] t)
       = Panic "nil pointer dereference".
Proof.
  eexists. split; [vm_compute; reflexivity|].
  eapply (Stop_before_Start_panics (initConfig_defaults config3) string
            (λ _, pass_all) "id" None
            (Some (mkSubscription string "sub" "http://sink" [])) 0 _
            [ActArriveEnqueue ev1; ActStart None 3]).
  - vm_compute. reflexivity.
  - vm_compute. reflexivity.
  - repeat (apply Forall_cons_2; [reflexivity|]). apply Forall_nil_2.
Defined.

(** ** A stopped trigger cannot be used again *)

Lemma step_closed a s s' :
  step a s = Ok s' →
  (closed (eventCh (trigger s)) = true → closed (eventCh (trigger s')) = true) ∧
  (closed (sendCh (trigger s)) = true → closed (sendCh (trigger s')) = true).
Proof.
  intros H.
  destruct a; crunch;
    repeat match goal with
    | |- context [runSleepWatch_tick ?now ?t] =>
      let E1 := fresh in let E2 := fresh in
      destruct (runSleepWatch_tick_queues now t) as (E1 & E2 & _);
      rewrite ?E1, ?E2
    end; done.
Qed.

(** X4: nothing opens a channel again: [Start] keeps the channels that
    [NewTrigger] made.  Once [Stop] has closed the intake channel, in every
    later state, also after another [Start], a call of [EventArrived] that
    takes its send case panics, and a call of [Stop] that comes to close the
    channels does not return. *)
Theorem closed_for_good (sched : list Action) (s s' : Sys) :
  closed (eventCh (trigger s)) = true →
  run sched s = Ok s' →
  closed (eventCh (trigger s')) = true ∧
  (∀ c now ev,
     EventArrived c now ev CaseSend s' = Panic "send on closed channel" ∧
     ∀ i, EventArrived c now ev (CaseSendTo i) s' = Panic "send on closed channel") ∧
  (∀ s'', step ActStopEnd s' ≠ Ok s'').
Proof.
  intros Hc Hrun.
  assert (Hc' : closed (eventCh (trigger s')) = true).
  { revert s Hc Hrun. induction sched as [|a sched IH]; intros s Hc Hrun; simpl in Hrun.
    - by simplify_eq.
    - destruct (step a s) as [s1| |] eqn:Hstep; simpl in Hrun; try done.
      apply (IH s1); [|done]. by apply (step_closed a s). }
  split; [done|]. split.
  - intros c now ev. split; [|intros i]; simpl;
      unfold arrive_enqueue, arrive_handoff, chan_send, chan_handoff;
      by rewrite Hc'.
  - intros s'' H. simpl in H. unfold stop_end, chan_close in H.
    rewrite Hc' in H. repeat case_match; simplify_eq/=.
Qed.

Lemma closed_for_good_witness :
  EventArrived Background 10 ev1 CaseSend
    (run_from [ActStart (Some acking) 9] stopped_sys)
  = Panic "send on closed channel".
Proof.
  apply (closed_for_good [ActStart (Some acking) 9] stopped_sys
           (run_from [ActStart (Some acking) 9] stopped_sys)).
  - reflexivity.
  - vm_compute. reflexivity.
Defined.

(** ** A second Start loses the first cancel function *)

Lemma step_scopes a s s' :
  step a s = Ok s' → stop_latest s →
  stop_latest s' ∧
  (length (scopes s) ≤ length (scopes s'))%nat ∧
  (∀ k, (S k < length (scopes s))%nat → scopes s' !! k = scopes s !! k).
Proof.
  intros H Hl. unfold stop_latest in *.
  assert (Ht : ∀ now t, stop (runSleepWatch_tick now t) = stop t)
    by (intros; unfold runSleepWatch_tick; by repeat case_match).
  destruct a; crunch; rewrite ?Ht in *; simplify_eq;
    rewrite ?length_app, ?length_insert; simpl;
    (split_and!; [first [done|congruence|lia]..|]);
    intros k Hk;
    first [done | apply lookup_app_l; lia | apply list_lookup_insert_ne; lia].
Qed.

(** X5: [Start] overwrites [t.stop] with the cancel function of the scope it
    makes, and [Stop] cancels through [t.stop] only.  So from any state
    reached from a trigger that was never started, a scope that is not the
    one made last keeps for ever the status it has: the goroutines of an
    earlier [Start] that was not stopped can no longer be cancelled. *)
Theorem earlier_scopes_frozen (t : Trigger) (sched1 sched2 : list Action)
    (s s' : Sys) (k : nat) :
  stop t = None →
  run sched1 (init t) = Ok s →
  run sched2 s = Ok s' →
  (S k < length (scopes s))%nat →
  scopes s' !! k = scopes s !! k ∧ scope_done s' k = scope_done s k.
Proof.
  intros Hstop Hrun1 Hrun2 Hk.
  assert (Hgen : ∀ sched s0 s1, run sched s0 = Ok s1 → stop_latest s0 →
            stop_latest s1 ∧ (length (scopes s0) ≤ length (scopes s1))%nat ∧
            ∀ k, (S k < length (scopes s0))%nat → scopes s1 !! k = scopes s0 !! k).
  { clear. induction sched as [|a sched IH]; intros s0 s1 H Hl; simpl in H.
    - simplify_eq. by split_and!.
    - destruct (step a s0) as [s2| |] eqn:Hstep; simpl in H; try done.
      destruct (step_scopes a s0 s2 Hstep Hl) as (L1 & L2 & L3).
      destruct (IH s2 s1 H L1) as (M1 & M2 & M3).
      split_and!; [done|lia|].
      intros k Hk. rewrite M3 by lia. by apply L3. }
  destruct (Hgen sched1 (init t) s Hrun1) as (L1 & _ & _).
  { unfold stop_latest. simpl. by rewrite Hstop. }
  destruct (Hgen sched2 s s' Hrun2 L1) as (_ & _ & M3).
  assert (E : scopes s' !! k = scopes s !! k) by (by apply M3).
  split; [done|]. unfold scope_done. by rewrite E.
Qed.

Lemma earlier_scopes_frozen_witness :
  scope_done
    (run_from [ActStopBegin; ActFilterDone 1]
       (sys_after [ActStart (Some acking) 0; ActStart (Some acking) 1]
          (trigger_of pass_all config3))) 0
  = false.
Proof.
  destruct (earlier_scopes_frozen (trigger_of pass_all config3)
              [ActStart (Some acking) 0; ActStart (Some acking) 1]
              [ActStopBegin; ActFilterDone 1]
              (sys_after [ActStart (Some acking) 0; ActStart (Some acking) 1]
                 (trigger_of pass_all config3))
              (run_from [ActStopBegin; ActFilterDone 1]
                 (sys_after [ActStart (Some acking) 0; ActStart (Some acking) 1]
                    (trigger_of pass_all config3))) 0) as [_ H].
  - reflexivity.
  - vm_compute. reflexivity.
  - vm_compute. reflexivity.
  - vm_compute. lia.
  - rewrite H. vm_compute. reflexivity.
Defined.

(** ** How long the retry loop holds a send worker *)

Lemma retry_loop_time config cl ctx e fuel rt err now :
  0 ≤ RetryPeriod config →
  now + Z.of_nat (sleeps (retry_loop config cl ctx e fuel rt err now []).2)
        * RetryPeriod config
  ≤ (retry_loop config cl ctx e fuel rt err now []).1.2.
Proof.
  intros Hp. revert rt err now.
  induction fuel as [|fuel IH]; intros rt err now; simpl.
  - unfold sleeps, count. simpl. lia.
  - destruct (rt <? MaxRetryTimes config).
    2:{ unfold sleeps, count. simpl. lia. }
    unfold doFunc. destruct (cl now _ e) as [r d].
    destruct (IsACK r); simpl.
    + unfold sleeps, count, elapse. simpl. lia.
    + rewrite retry_loop_acc. simpl.
      specialize (IH (rt + 1) r (elapse (elapse now d) (RetryPeriod config))).
      unfold sleeps, count, elapse in *. simpl.
      rewrite Nat2Z.inj_succ, Z.mul_succ_l. lia.
Qed.

(** X6: with [RetryPeriod >= 0], [retrySendEvent] returns no earlier than
    its start plus one [RetryPeriod] for each pause it made.  Against a sink
    that rejects every attempt, that is at least [MaxRetryTimes] times
    [RetryPeriod] after its start, whatever the context: the pause after the
    last attempt is included and cancellation does not shorten the wait. *)
Theorem retrySendEvent_duration (config : Config) (cl : SinkClient)
    (ctx : Context) (e : CeEvent) (now : Time) :
  0 ≤ RetryPeriod config →
  let r := retrySendEvent config cl ctx e now in
  now + Z.of_nat (sleeps r.2) * RetryPeriod config ≤ r.1.2 ∧
  (always_rejects cl →
   now + Z.max 0 (MaxRetryTimes config) * RetryPeriod config ≤ r.1.2).
Proof.
  intros Hp r.
  assert (H1 : now + Z.of_nat (sleeps r.2) * RetryPeriod config ≤ r.1.2)
    by (by apply retry_loop_time).
  split; [done|]. intros Hrej.
  destruct (retrySendEvent_shape config cl ctx e now)
    as (m & acked & R1 & R2 & _ & R4 & _).
  simpl in *. fold r in R1, R2.
  assert (acked = false) as ->.
  { destruct acked; [|done].
    assert (Hin : true ∈ replies cl r.2)
      by (rewrite R1; apply elem_of_app; right; constructor).
    unfold replies in Hin. apply list_elem_of_omap in Hin.
    destruct Hin as (x & _ & Hx). destruct x; try done.
    injection Hx as Hx. by rewrite Hrej in Hx. }
  rewrite <- sleeps_pauses, R2, rounds_pauses, (R4 eq_refl) in H1.
  replace (Z.of_nat (Z.to_nat (MaxRetryTimes config)))
    with (Z.max 0 (MaxRetryTimes config)) in H1 by lia. done.
Qed.

Lemma retrySendEvent_duration_witness :
  0 + 3 * 5 ≤ (retrySendEvent config3 rejecting (mkContext (Some 1) None) "a" 0).1.2.
Proof.
  destruct (retrySendEvent_duration config3 rejecting (mkContext (Some 1) None)
              "a" 0) as [_ H].
  - simpl. lia.
  - apply H. intros t c e'. unfold rejecting. by destruct (Done c t).
Defined.

(** ** The goroutines of a trigger *)

Lemma step_pools a s s' :
  step a s = Ok s' →
  let n := if is_start a then 1%nat else 0%nat in
  let cfg := config (trigger s) in
  config (trigger s') = cfg ∧
  filter (trigger s') = filter (trigger s) ∧
  length (filterWorkers s') =
    (length (filterWorkers s) + n * Z.to_nat (FilterProcessSize cfg))%nat ∧
  length (sendWorkers s') =
    (length (sendWorkers s) + n * Z.to_nat (SendProcessSize cfg))%nat ∧
  length (watchers s') = (length (watchers s) + n)%nat.
Proof.
  intros H.
  assert (Ht : ∀ now t, config (runSleepWatch_tick now t) = config t ∧
                        filter (runSleepWatch_tick now t) = filter t)
    by (intros; unfold runSleepWatch_tick; by repeat case_match).
  destruct a; crunch;
    rewrite ?(proj1 (Ht _ _)), ?(proj2 (Ht _ _)),
      ?length_app, ?length_insert, ?length_replicate;
    simpl; split_and!; try done; lia.
Qed.

(** X7: in every run, the configuration and the filter of the trigger stay
    what [NewTrigger] set, and goroutines are started by [Start] only: after
    [n] calls of [Start] that built their sink client there are [n] times
    [FilterProcessSize] filter workers, [n] times [SendProcessSize] send
    workers and [n] watchers, returned ones included; a size of 0 or less
    gives no worker at all. *)
Theorem pools_by_Start (t : Trigger) (sched : list Action) (s : Sys) :
  run sched (init t) = Ok s →
  config (trigger s) = config t ∧
  filter (trigger s) = filter t ∧
  length (filterWorkers s) =
    (starts sched * Z.to_nat (FilterProcessSize (config t)))%nat ∧
  length (sendWorkers s) =
    (starts sched * Z.to_nat (SendProcessSize (config t)))%nat ∧
  length (watchers s) = starts sched.
Proof.
  intros Hrun.
  assert (Hgen : ∀ sched s0 s1, run sched s0 = Ok s1 →
            config (trigger s1) = config (trigger s0) ∧
            filter (trigger s1) = filter (trigger s0) ∧
            length (filterWorkers s1) =
              (length (filterWorkers s0)
               + starts sched * Z.to_nat (FilterProcessSize (config (trigger s0))))%nat ∧
            length (sendWorkers s1) =
              (length (sendWorkers s0)
               + starts sched * Z.to_nat (SendProcessSize (config (trigger s0))))%nat ∧
            length (watchers s1) = (length (watchers s0) + starts sched)%nat).
  { clear. induction sched as [|a sched IH]; intros s0 s1 H; simpl in H.
    - simplify_eq. unfold starts. simpl. split_and!; try done; lia.
    - destruct (step a s0) as [s2| |] eqn:Hstep; simpl in H; try done.
      destruct (step_pools a s0 s2 Hstep) as (C1 & C2 & C3 & C4 & C5).
      destruct (IH s2 s1 H) as (D1 & D2 & D3 & D4 & D5).
      rewrite C1 in D3, D4. unfold starts in *. simpl.
      destruct (is_start a); simpl in *;
        split_and!; try congruence; lia. }
  destruct (Hgen sched (init t) s Hrun) as (D1 & D2 & D3 & D4 & D5).
  simpl in *. by split_and!.
Qed.

Lemma pools_by_Start_witness :
  length (filterWorkers
            (sys_after [ActStart (Some acking) 0; ActStart None 1;
                        ActStart (Some acking) 2]
               (trigger_of pass_all config3))) = 2%nat.
Proof.
  destruct (pools_by_Start (trigger_of pass_all config3)
              [ActStart (Some acking) 0; ActStart None 1; ActStart (Some acking) 2]
              (sys_after [ActStart (Some acking) 0; ActStart None 1;
                          ActStart (Some acking) 2]
                 (trigger_of pass_all config3))) as (_ & _ & H & _).
  - vm_compute. reflexivity.
  - rewrite H. reflexivity.
Defined.

(** ** What the state Stopped tells *)

Lemma forallb_lookup {A} (f : A → bool) (l : list A) i x :
  forallb f l = true → l !! i = Some x → f x = true.
Proof.
  revert i. induction l as [|y l IH]; intros [|i] H Hx; simplify_eq/=;
    apply andb_prop in H as [H1 H2]; eauto.
Qed.

Ltac exited_facts :=
  repeat match goal with
  | H : all_exited _ = true |- _ =>
    unfold all_exited in H; simpl in H;
    apply andb_prop in H as [H ?]; apply andb_prop in H as [? ?]
  | H : ?l !! ?i = Some ?x, HF : forallb ?f ?l = true |- _ =>
    let F := fresh "F" in
    pose proof (forallb_lookup f l i x HF H) as F;
    clear H; simpl in F; try discriminate F
  end.




(** ** What the commit of a send worker tells *)

(** X9: with [MaxRetryTimes > 0], for the event that a send worker holds:
    the body of [runEventSend] ends with the commit on the send-success
    path exactly when the sink acknowledged the last attempt, and with the
    commit on the retries-exhausted path exactly when all [MaxRetryTimes]
    attempts were made and rejected. *)
Theorem success_iff_ack (s : Sys) (j k : nat) (ev : EventRecord)
    (now : Time) (c : Context) (cl : SinkClient) :
  0 < MaxRetryTimes (config (trigger s)) →
  sendWorkers s !! j = Some (k, SGot ev) →
  ceClient (trigger s) = Some cl →
  scope_ctx s k c now = true →
  let r := retrySendEvent (config (trigger s)) cl c (Event ev) now in
  ∃ s',
    runEventSend_body j now c s = Ok s' ∧
    (last (hist s') = Some (ObsCommit (OffsetInfo_of ev) SendSuccess) ↔
     last (replies cl r.2) = Some true) ∧
    (last (hist s') = Some (ObsCommit (OffsetInfo_of ev) RetriesExhausted) ↔
     replies cl r.2 = replicate (Z.to_nat (MaxRetryTimes (config (trigger s)))) false).
Proof.
  intros Hpos Hw Hcl Hctx r.
  eexists. split; [by apply (runEventSend_body_eq s j k ev now c cl)|].
  fold r. simpl. unfold commit_after_retry. rewrite !app_assoc, last_snoc.
  destruct (retrySendEvent_shape (config (trigger s)) cl c (Event ev) now)
    as (m & acked & R1 & _ & _ & R4 & R5 & _ & R7 & _).
  simpl in *. fold r in R1, R5, R7. rewrite R1.
  destruct acked.
  - rewrite (R5 eq_refl). simpl. rewrite last_snoc. split; [done|].
    split; [done|]. intros E.
    apply (f_equal last) in E. rewrite last_snoc in E.
    destruct (Z.to_nat (MaxRetryTimes (config (trigger s)))) as [|n]; [done|].
    rewrite replicate_S_end, last_snoc in E. done.
  - specialize (R4 eq_refl). subst m.
    assert (Hn : notNil r.1.1 = true).
    { specialize (R7 eq_refl ltac:(lia)). by destruct (r.1.1). }
    rewrite Hn, app_nil_r.
    destruct (Z.to_nat (MaxRetryTimes (config (trigger s)))) as [|n] eqn:En; [lia|].
    split; [|done].
    rewrite replicate_S_end, last_snoc. split; intros E; discriminate E.
Qed.

Lemma success_iff_ack_witness :
  ∃ s', runEventSend_body 0 0 Background (holding config3 acking) = Ok s' ∧
        last (hist s') = Some (ObsCommit 1 SendSuccess).
Proof.
  destruct (success_iff_ack (holding config3 acking) 0 0 ev1 0 Background acking)
    as (s' & H1 & H2 & _); [reflexivity..|].
  exists s'. split; [exact H1|]. apply H2. vm_compute. reflexivity.
Defined.

(** ** A filter worker blocked on the send queue *)

Lemma step_stuck i a s s' :
  step a s = Ok s' → is_start a = false → stuck i s → stuck i s'.
Proof.
  intros H Hn ((k & ev & Hw) & Hc & Hfull & Hex). unfold stuck.
  destruct a; crunch;
    try (destruct (runSleepWatch_tick_queues now (trigger s)) as (_ & -> & _));
    try lia; exited_facts;
    repeat match goal with
    | H : filterWorkers s !! ?i' = Some _ |- _ =>
      destruct (decide (i' = i)) as [->|Hne]; [simplify_eq/=|];
      try rewrite (list_lookup_insert_ne _ _ _ _ Hne); clear H
    | H : forallb filter_exited _ = true |- _ =>
      pose proof (forallb_lookup _ _ _ _ H Hw) as F; discriminate F
    end;
    try rewrite list_lookup_insert_ne by done;
    split_and!; eauto.
Qed.

Lemma forallb_lookup_false {A} (f : A → bool) (l : list A) i x :
  l !! i = Some x → f x = false → forallb f l = false.
Proof.
  intros Hx Hf. destruct (forallb f l) eqn:E; [|done].
  by rewrite (forallb_lookup f l i x E Hx) in Hf.
Qed.

(** X10: the send [t.sendCh <- event] of the filter worker stands outside
    any [select].  If a filter worker stands there while the send queue is
    open and full and every send worker has returned (as after the
    cancellation by [Stop]), then in every later state without another
    [Start] it still stands there: none of its steps can be taken, the
    cancellation of its scope included, and [wg.Wait] in [Stop] does not
    return. *)
Theorem blocked_forward_never_returns (i : nat) (sched : list Action) (s s' : Sys) :
  stuck i s →
  no_start sched →
  run sched s = Ok s' →
  stuck i s' ∧
  all_exited s' = false ∧
  step ActStopEnd s' = Blocked ∧
  step (ActFilterDone i) s' = Blocked ∧
  step (ActFilterForward i) s' = Blocked ∧
  (∀ j, step (ActFilterHandoff i j) s' = Blocked).
Proof.
  intros Hs Hno Hrun.
  assert (Hs' : stuck i s').
  { revert s Hs Hrun. induction Hno as [|a sched Ha _ IH]; intros s Hs Hrun;
      simpl in Hrun.
    - by simplify_eq.
    - destruct (step a s) as [s1| |] eqn:Hstep; simpl in Hrun; try done.
      apply (IH s1); [|done]. by apply (step_stuck i a s). }
  split; [done|].
  destruct Hs' as ((k & ev & Hw) & Hc & Hfull & Hex).
  assert (Hall : all_exited s' = false).
  { unfold all_exited.
    by rewrite (forallb_lookup_false filter_exited _ i _ Hw). }
  split_and!; [done|..].
  - simpl. unfold stop_end. rewrite Hall. by destruct (stopping s').
  - simpl. unfold filter_done. by rewrite Hw.
  - simpl. unfold filter_forward, chan_send. rewrite Hw, Hc. simpl.
    destruct (Z.ltb_spec (Z.of_nat (length (buf (sendCh (trigger s')))))
                (cap (sendCh (trigger s')))); [lia|done].
  - intros j. simpl. unfold filter_handoff. rewrite Hw.
    destruct (sendWorkers s' !! j) as [[k' pc]|] eqn:Hj; [|done].
    pose proof (forallb_lookup _ _ _ _ Hex Hj) as F.
    destruct pc; try done.
Qed.

Lemma blocked_forward_never_returns_witness :
  step ActStopEnd
    (run_from [ActWatchDone 0; ActArriveCancelled (mkContext (Some 1) None) 2]
       (sys_after stuck_schedule (trigger_of pass_all config_small)))
  = Blocked.
Proof.
  destruct (blocked_forward_never_returns 0
              [ActWatchDone 0; ActArriveCancelled (mkContext (Some 1) None) 2]
              (sys_after stuck_schedule (trigger_of pass_all config_small))
              (run_from [ActWatchDone 0; ActArriveCancelled (mkContext (Some 1) None) 2]
                 (sys_after stuck_schedule (trigger_of pass_all config_small))))
    as (_ & _ & H & _).
  - unfold stuck. vm_compute. split_and!; try reflexivity.
    + exists 0%nat, ev2. reflexivity.
    + discriminate.
  - repeat (apply Forall_cons_2; [reflexivity|]). apply Forall_nil_2.
  - vm_compute. reflexivity.
  - exact H.
Defined.

(** ** Registrations with the offset tracker *)

(** X11: in every run from a fresh trigger, for every position the calls of
    [EventReceive] and the calls of [EventArrived] that have sent their
    event and not yet registered it add up to the accepted events: a
    position is registered once for each time it was accepted, never more,
    and by the time no call of [EventArrived] is under way, exactly as often
    as it was accepted; a position that was never accepted is never
    registered. *)
Theorem receive_once_per_accept (t : Trigger) (sched : list Action) (s : Sys)
    (o : OffsetInfo) :
  fresh t →
  run sched (init t) = Ok s →
  (receives o (hist s) + queued o (arriving s) = accepted o (hist s))%nat ∧
  (receives o (hist s) ≤ accepted o (hist s))%nat ∧
  (arriving s = [] → receives o (hist s) = accepted o (hist s)) ∧
  (accepted o (hist s) = 0%nat → receives o (hist s) = 0%nat).
Proof.
  intros Hfresh Hrun.
  destruct (run_inv sched (init t) s Hrun (init_inv t Hfresh)) as (_ & I2 & _).
  specialize (I2 o). split_and!; try lia.
  intros E. rewrite E in I2. unfold queued in I2. simpl in I2. lia.
Qed.

Lemma receive_once_per_accept_witness :
  receives 1 (hist (sys_after race_schedule (trigger_of drop_all config3))) = 1%nat.
Proof.
  destruct (receive_once_per_accept (trigger_of drop_all config3) race_schedule
              (sys_after race_schedule (trigger_of drop_all config3)) 1)
    as (_ & _ & H & _).
  - split; reflexivity.
  - vm_compute. reflexivity.
  - rewrite H; vm_compute; reflexivity.
Defined.

(** ** Start followed by Stop *)

Lemma run_app sched1 sched2 s :
  run (sched1 ++ sched2) s = run sched1 s ≫= run sched2.
Proof.
  revert s. induction sched1 as [|a sched1 IH]; intros s; simpl; [done|].
  destruct (step a s); simpl; [apply IH|done|done].
Qed.

Lemma set_filterWorkers_id s : set_filterWorkers (filterWorkers s) s = s.
Proof. by destruct s. Qed.

Lemma set_sendWorkers_id s : set_sendWorkers (sendWorkers s) s = s.
Proof. by destruct s. Qed.

(** The filter workers [a .. a+b-1], idle under cancelled scopes, return
    one after the other. *)
Lemma run_filter_done b a s :
  (∀ i, (a ≤ i < a + b)%nat →
        ∃ k, filterWorkers s !! i = Some (k, FIdle) ∧ scope_done s k = true) →
  ∃ ws,
    run (ActFilterDone <$> seq a b) s = Ok (set_filterWorkers ws s) ∧
    length ws = length (filterWorkers s) ∧
    (∀ i, (a ≤ i < a + b)%nat → ∃ k, ws !! i = Some (k, FExited)) ∧
    (∀ i, ¬ (a ≤ i < a + b)%nat → ws !! i = filterWorkers s !! i).
Proof.
  revert a s. induction b as [|b IH]; intros a s Hidle.
  - exists (filterWorkers s). simpl. rewrite set_filterWorkers_id.
    split_and!; try done. intros i Hi. lia.
  - destruct (Hidle a ltac:(lia)) as (k & Hk & Hd).
    simpl. unfold filter_done. rewrite Hk, Hd. simpl.
    destruct (IH (S a) (set_filterWorkers (<[a := (k, FExited)]> (filterWorkers s)) s))
      as (ws & R1 & R2 & R3 & R4).
    { intros i Hi. simpl. rewrite list_lookup_insert_ne by lia.
      destruct (Hidle i ltac:(lia)) as (k' & Hk' & Hd'). by exists k'. }
    exists ws. simpl in R2, R4. rewrite length_insert in R2.
    split_and!; [exact R1|done|..].
    + intros i Hi. destruct (decide (i = a)) as [->|Hne].
      * rewrite R4 by lia. exists k.
        apply list_lookup_insert_eq. by eapply lookup_lt_Some.
      * apply R3. lia.
    + intros i Hi. rewrite R4 by lia. apply list_lookup_insert_ne. lia.
Qed.

Lemma run_send_done b a s :
  (∀ i, (a ≤ i < a + b)%nat →
        ∃ k, sendWorkers s !! i = Some (k, SIdle) ∧ scope_done s k = true) →
  ∃ ws,
    run (ActSendDone <$> seq a b) s = Ok (set_sendWorkers ws s) ∧
    length ws = length (sendWorkers s) ∧
    (∀ i, (a ≤ i < a + b)%nat → ∃ k, ws !! i = Some (k, SExited)) ∧
    (∀ i, ¬ (a ≤ i < a + b)%nat → ws !! i = sendWorkers s !! i).
Proof.
  revert a s. induction b as [|b IH]; intros a s Hidle.
  - exists (sendWorkers s). simpl. rewrite set_sendWorkers_id.
    split_and!; try done. intros i Hi. lia.
  - destruct (Hidle a ltac:(lia)) as (k & Hk & Hd).
    simpl. unfold send_done. rewrite Hk, Hd. simpl.
    destruct (IH (S a) (set_sendWorkers (<[a := (k, SExited)]> (sendWorkers s)) s))
      as (ws & R1 & R2 & R3 & R4).
    { intros i Hi. simpl. rewrite list_lookup_insert_ne by lia.
      destruct (Hidle i ltac:(lia)) as (k' & Hk' & Hd'). by exists k'. }
    exists ws. simpl in R2, R4. rewrite length_insert in R2.
    split_and!; [exact R1|done|..].
    + intros i Hi. destruct (decide (i = a)) as [->|Hne].
      * rewrite R4 by lia. exists k.
        apply list_lookup_insert_eq. by eapply lookup_lt_Some.
      * apply R3. lia.
    + intros i Hi. rewrite R4 by lia. apply list_lookup_insert_ne. lia.
Qed.

Lemma forallb_all_lookup {A} (f : A → bool) (l : list A) :
  (∀ i, (i < length l)%nat → ∃ x, l !! i = Some x ∧ f x = true) →
  forallb f l = true.
Proof.
  intros H. apply List.forallb_forall. intros x Hx.
  apply list_elem_of_In, list_elem_of_lookup in Hx as [i Hi].
  destruct (H i) as (y & Hy & Hf); [by eapply lookup_lt_Some|].
  congruence.
Qed.

(** X12: [Start] and [Stop] compose.  On a trigger with open channels, a
    [Start] that builds its sink client followed by [Stop], with every
    worker and the watcher idle and taking the [ctx.Done()] case, runs to
    its end for every size of the two pools: the state is
    [TriggerStopped], every goroutine has returned, both channels are
    closed with their content as it was, and the offset tracker and the
    sink have not been called. *)
Theorem Start_then_Stop (t : Trigger) (cl : SinkClient) (now : Time) :
  closed (eventCh t) = false →
  closed (sendCh t) = false →
  ∃ s',
    run (start_stop_schedule (config t) cl now) (init t) = Ok s' ∧
    state (trigger s') = TriggerStopped ∧
    all_exited s' = true ∧
    closed (eventCh (trigger s')) = true ∧
    closed (sendCh (trigger s')) = true ∧
    buf (eventCh (trigger s')) = buf (eventCh t) ∧
    buf (sendCh (trigger s')) = buf (sendCh t) ∧
    hist s' = [ObsInfo "trigger stop..."; ObsInfo "trigger stopped"].
Proof.
  intros He Hs.
  set (n := Z.to_nat (FilterProcessSize (config t))).
  set (m := Z.to_nat (SendProcessSize (config t))).
  set (s2 := mkSys (set_started cl 0 now t) [true]
               (replicate n (0%nat, FIdle)) (replicate m (0%nat, SIdle))
               [(0%nat, WIdle)] [] 1 [ObsInfo "trigger stop..."]).
  assert (H2 : run [ActStart (Some cl) now; ActStopBegin] (init t) = Ok s2) by done.
  destruct (run_filter_done n 0 s2) as (fw & F1 & F2 & F3 & _).
  { intros i Hi. exists 0%nat. split; [|done].
    simpl. apply lookup_replicate_2. lia. }
  destruct (run_send_done m 0 (set_filterWorkers fw s2)) as (sw & S1 & S2 & S3 & _).
  { intros i Hi. exists 0%nat. split; [|done].
    simpl. apply lookup_replicate_2. lia. }
  simpl in F2, S2. rewrite length_replicate in F2. rewrite length_replicate in S2.
  assert (Hfw : forallb filter_exited fw = true).
  { apply forallb_all_lookup. intros i Hi.
    destruct (F3 i ltac:(lia)) as (k & Hk). by exists (k, FExited). }
  assert (Hsw : forallb send_exited sw = true).
  { apply forallb_all_lookup. intros i Hi.
    destruct (S3 i ltac:(lia)) as (k & Hk). by exists (k, SExited). }
  eexists. split.
  - unfold start_stop_schedule, idle_workers_return. fold n m.
    rewrite run_app, H2. simpl.
    rewrite !run_app, F1. simpl. rewrite run_app, S1. simpl.
    unfold stop_end, all_exited. simpl. rewrite Hfw, Hsw. simpl.
    unfold chan_close. rewrite He, Hs. simpl. reflexivity.
  - simpl. unfold all_exited. simpl. rewrite Hfw, Hsw. by split_and!.
Qed.

Lemma Start_then_Stop_witness :
  ∃ s', run (start_stop_schedule config3 acking 0)
          (init (trigger_of pass_all config3)) = Ok s' ∧
        state (trigger s') = TriggerStopped.
Proof.
  destruct (Start_then_Stop (trigger_of pass_all config3) acking 0)
    as (s' & H1 & H2 & _); [reflexivity..|].
  exists s'. split; [exact H1|exact H2].
Defined.

(** ** The path of a commit and the verdict of the filter *)

Lemma enq_app h1 h2 : enq (h1 ++ h2) = enq h1 ++ enq h2.
Proof. apply omap_app. Qed.

Lemma retrySendEvent_enq config cl c e now :
  enq (retrySendEvent config cl c e now).2 = [].
Proof.
  destruct (retrySendEvent_shape config cl c e now) as (m & acked & H).
  simpl in H. destruct H as (_ & _ & _ & _ & _ & _ & _ & H).
  unfold enq. induction H as [|x tr Hx _ IH]; [done|].
  destruct x; simpl in *; done.
Qed.

Lemma retrySendEvent_justified f E config cl c e now :
  Forall (commit_justified f E) (retrySendEvent config cl c e now).2.
Proof.
  destruct (retrySendEvent_shape config cl c e now) as (m & acked & H).
  simpl in H. destruct H as (_ & _ & _ & _ & _ & _ & _ & H).
  eapply Forall_impl; [exact H|]. intros [] Hx; simpl in *; done.
Qed.

Lemma verdict_mono f E ev0 :
  (∀ ev, known E ev → known (E ++ [ev0]) ev) ∧
  (∀ ev, known_pass f E ev → known_pass f (E ++ [ev0]) ev) ∧
  (∀ w, filter_pc_known f E w → filter_pc_known f (E ++ [ev0]) w) ∧
  (∀ w, send_pc_known f E w → send_pc_known f (E ++ [ev0]) w) ∧
  (∀ x, commit_justified f E x → commit_justified f (E ++ [ev0]) x).
Proof.
  assert (K : ∀ ev, ev ∈ E → ev ∈ E ++ [ev0])
    by (intros; apply elem_of_app; by left).
  unfold known, known_pass, filter_pc_known, send_pc_known.
  split_and!.
  - done.
  - intros ev [H1 H2]. auto.
  - intros [k []]; simpl; unfold known, known_pass; intuition auto.
  - intros [k []]; simpl; unfold known, known_pass; intuition auto.
  - intros [] H; simpl in *; try done.
    destruct H as (ev & H1 & H2 & H3). exists ev. auto.
Qed.

Ltac verdict_facts :=
  repeat match goal with
  | H : buf ?c = _, HF : Forall _ (buf ?c) |- _ => rewrite H in HF
  | HF : Forall _ (_ :: _) |- _ => apply Forall_cons_1 in HF as [? ?]
  end;
  try match goal with
  | H : filterWorkers ?s !! _ = Some _, HF : Forall _ (filterWorkers ?s) |- _ =>
    let F := fresh "F" in
    pose proof (Forall_lookup_1 _ _ _ _ HF H) as F;
    unfold filter_pc_known in F; simpl in F
  end;
  try match goal with
  | H : sendWorkers ?s !! _ = Some _, HF : Forall _ (sendWorkers ?s) |- _ =>
    let F := fresh "F" in
    pose proof (Forall_lookup_1 _ _ _ _ HF H) as F;
    unfold send_pc_known in F; simpl in F
  end;
  try match goal with
  | H : retrySendEvent ?cfg ?cl ?c ?e ?now = (_, _, ?l) |- _ =>
    let X := fresh "X" in let Y := fresh "Y" in
    pose proof (retrySendEvent_enq cfg cl c e now) as X;
    pose proof (λ f E, retrySendEvent_justified f E cfg cl c e now) as Y;
    rewrite H in X, Y; simpl in X, Y
  end.

Ltac verdict_solve :=
  repeat first
    [ done
    | apply Forall_nil_2
    | apply Forall_insert
    | apply Forall_replicate
    | apply Forall_app_2
    | apply Forall_cons_2
    | match goal with
      | |- context [notNil ?e] => destruct (notNil e)
      | |- context [runSleepWatch_tick ?now ?t] =>
        let E1 := fresh in let E2 := fresh in let E3 := fresh in
        destruct (runSleepWatch_tick_queues now t) as (E1 & E2 & E3);
        rewrite ?E1, ?E2, ?E3
      | F : known _ ?ev |- commit_justified _ _ (ObsCommit (OffsetInfo_of ?ev) _) =>
        exists ev; split_and!; [exact F|done|done]
      | F : known_pass _ _ ?ev |- commit_justified _ _ (ObsCommit (OffsetInfo_of ?ev) _) =>
        exists ev; split_and!; [exact (proj1 F)|done|];
        split; [discriminate|intros ?; by destruct F]
      | F : known_pass _ _ ?ev |- known_pass _ _ ?ev => exact F
      | F : known _ ?ev |- known_pass _ _ ?ev => split; [exact F|done]
      end
    | progress (unfold filter_pc_known, send_pc_known; simpl) ].

Ltac verdict_case :=
  crunch; verdict_facts; unfold commit_after_retry;
  repeat match goal with
  | |- context [notNil ?e] => destruct (notNil e)
  end;
  rewrite ?enq_app; simpl;
  repeat match goal with
  | X : enq _ = [] |- _ => rewrite X; clear X
  end;
  rewrite ?app_nil_r; split_and!; simpl; try done; verdict_solve.

Lemma step_verdict f a s s' : step a s = Ok s' → verdict_inv f s → verdict_inv f s'.
Proof.
  intros H (Hf & Hq & Hfw & Hsq & Hsw & Hh). unfold verdict_inv.
  destruct a; [| |verdict_case..].
  - (* ActArriveEnqueue *)
    crunch. rewrite enq_app. simpl.
    destruct (verdict_mono (filter (trigger s)) (enq (hist s)) ev)
      as (M1 & M2 & M3 & M4 & M5).
    split_and!; try done.
    + apply Forall_app_2; [by eapply Forall_impl|].
      apply Forall_singleton. apply elem_of_app. right. constructor.
    + by eapply Forall_impl.
    + by eapply Forall_impl.
    + by eapply Forall_impl.
    + apply Forall_app_2; [by eapply Forall_impl|]. by apply Forall_singleton.
  - (* ActArriveHandoff *)
    crunch. rewrite enq_app. simpl.
    destruct (verdict_mono (filter (trigger s)) (enq (hist s)) ev)
      as (M1 & M2 & M3 & M4 & M5).
    split_and!; try done.
    + apply Forall_insert; [by eapply Forall_impl|].
      unfold filter_pc_known. simpl. apply elem_of_app. right. constructor.
    + by eapply Forall_impl.
    + by eapply Forall_impl.
    + apply Forall_app_2; [by eapply Forall_impl|]. by apply Forall_singleton.
Qed.

Lemma init_verdict t : fresh t → verdict_inv (filter t) (init t).
Proof.
  intros [He Hs]. unfold verdict_inv. simpl. rewrite He, Hs. by split_and!.
Qed.

Lemma run_verdict f sched s s' :
  run sched s = Ok s' → verdict_inv f s → verdict_inv f s'.
Proof.
  revert s. induction sched as [|a sched IH]; intros s H Hinv; simpl in H.
  - by simplify_eq.
  - destruct (step a s) as [s1| |] eqn:Hstep; simpl in H; try done.
    apply (IH s1 H). by apply (step_verdict f a s).
Qed.

(** X13: in every run from a fresh trigger, each [EventCommit] in the
    history is the commit of an event that [EventArrived] accepted with that
    position, and its path tells the verdict of the filter on that event:
    the filter worker commits it if the event fails the filter, a send
    worker (after success or after exhausted retries) if it does not. *)
Theorem commit_path_matches_filter (t : Trigger) (sched : list Action) (s : Sys)
    (i : nat) (o : OffsetInfo) (p : CommitPath) :
  fresh t →
  run sched (init t) = Ok s →
  hist s !! i = Some (ObsCommit o p) →
  ∃ ev, ObsEnqueue ev ∈ hist s ∧ OffsetInfo_of ev = o ∧
        (p = FilterReject ↔ filter t (Event ev) = FailFilter).
Proof.
  intros Hfresh Hrun Hi.
  destruct (run_verdict (filter t) sched (init t) s Hrun (init_verdict t Hfresh))
    as (_ & _ & _ & _ & _ & Hh).
  pose proof (Forall_lookup_1 _ _ _ _ Hh Hi) as (ev & H1 & H2 & H3).
  exists ev. split_and!; try done.
  unfold enq in H1. apply list_elem_of_omap in H1 as (x & Hx & Hev).
  destruct x; simplify_eq/=. done.
Qed.

Lemma commit_path_matches_filter_witness :
  ∃ ev, ObsEnqueue ev ∈ hist (sys_after race_schedule (trigger_of drop_all config3)) ∧
        OffsetInfo_of ev = 1 ∧
        (FilterReject = FilterReject ↔ drop_all (Event ev) = FailFilter).
Proof.
  apply (commit_path_matches_filter (trigger_of drop_all config3) race_schedule
           (sys_after race_schedule (trigger_of drop_all config3)) 1 1 FilterReject).
  - split; reflexivity.
  - vm_compute. reflexivity.
  - vm_compute. reflexivity.
Defined.

(** X14: positions need not be distinct for the count of commits to be
    right.  In every run from a fresh trigger, a position is never
    committed more often than it was accepted, the difference being the
    events of that position still in a queue or in the hands of a worker;
    in a quiescent state it is committed exactly as often as it was
    accepted, and a position that was never accepted is never committed. *)
Theorem commits_match_accepts (t : Trigger) (sched : list Action) (s : Sys)
    (o : OffsetInfo) :
  fresh t →
  run sched (init t) = Ok s →
  (commits o (hist s) + inflight o s = accepted o (hist s))%nat ∧
  (commits o (hist s) ≤ accepted o (hist s))%nat ∧
  (quiescent s → commits o (hist s) = accepted o (hist s)) ∧
  (accepted o (hist s) = 0%nat → commits o (hist s) = 0%nat).
Proof.
  intros Hfresh Hrun.
  destruct (run_inv sched (init t) s Hrun (init_inv t Hfresh)) as (I1 & _ & _).
  specialize (I1 o). split_and!; try lia.
  intros Hq. rewrite (quiescent_inflight o s Hq) in I1. lia.
Qed.

Lemma commits_match_accepts_witness :
  commits 1 (hist (sys_after
                     [ActStart (Some acking) 0; ActArriveEnqueue ev1;
                      ActArriveEnqueue ev1; ActArriveReceive 0; ActArriveReceive 0;
                      ActFilterTake 0; ActFilterEval 0; ActFilterTake 0;
                      ActFilterEval 0]
                     (trigger_of drop_all config3))) = 2%nat.
Proof.
  destruct (commits_match_accepts (trigger_of drop_all config3)
              [ActStart (Some acking) 0; ActArriveEnqueue ev1;
               ActArriveEnqueue ev1; ActArriveReceive 0; ActArriveReceive 0;
               ActFilterTake 0; ActFilterEval 0; ActFilterTake 0; ActFilterEval 0]
              (sys_after
                 [ActStart (Some acking) 0; ActArriveEnqueue ev1;
                  ActArriveEnqueue ev1; ActArriveReceive 0; ActArriveReceive 0;
                  ActFilterTake 0; ActFilterEval 0; ActFilterTake 0;
                  ActFilterEval 0]
                 (trigger_of drop_all config3)) 1) as (_ & _ & H & _).
  - split; reflexivity.
  - vm_compute. reflexivity.
  - rewrite H.
    + vm_compute. reflexivity.
    + unfold quiescent. vm_compute. split_and!; try reflexivity; all_idle.
Defined.

(** ** One event from end to end *)

(** X15: the stages compose.  In a state with both queues open and empty,
    filter worker [i] and send worker [j] idle and the sink client built,
    an event that fails the filter is enqueued, registered and committed by
    the filter worker with no call of the sink; an event that passes is
    enqueued, registered, sent by the retry loop and committed by the send
    worker, with the error line in between if the loop returned an error.
    Either way both workers are idle again and both queues are empty. *)
Theorem delivery_end_to_end (s : Sys) (i j ki kj : nat) (ev : EventRecord)
    (now : Time) (c : Context) (cl : SinkClient) :
  ready s →
  filterWorkers s !! i = Some (ki, FIdle) →
  sendWorkers s !! j = Some (kj, SIdle) →
  ceClient (trigger s) = Some cl →
  scope_ctx s kj c now = true →
  let r := retrySendEvent (config (trigger s)) cl c (Event ev) now in
  ∃ s',
    run (if decide (filter (trigger s) (Event ev) = FailFilter)
         then drop_by i ev else deliver_by i j now c ev) s = Ok s' ∧
    hist s' =
      hist s ++ [ObsEnqueue ev; ObsReceive (OffsetInfo_of ev)] ++
      (if decide (filter (trigger s) (Event ev) = FailFilter)
       then [ObsCommit (OffsetInfo_of ev) FilterReject]
       else r.2 ++
            (if notNil r.1.1
             then [ObsError "send event to sink failed" r.1.1 ev] else []) ++
            [ObsCommit (OffsetInfo_of ev)
               (if notNil r.1.1 then RetriesExhausted else SendSuccess)]) ∧
    filterWorkers s' !! i = Some (ki, FIdle) ∧
    sendWorkers s' !! j = Some (kj, SIdle) ∧
    buf (eventCh (trigger s')) = [] ∧
    buf (sendCh (trigger s')) = [] ∧
    arriving s' = [].
Proof.
  intros (He1 & He2 & He3 & Hs1 & Hs2 & Hs3 & Ha) Hi Hj Hcl Hctx r.
  assert (Li : (i < length (filterWorkers s))%nat) by (by eapply lookup_lt_Some).
  assert (Lj : (j < length (sendWorkers s))%nat) by (by eapply lookup_lt_Some).
  assert (Hroom1 : (Z.of_nat 0 <? cap (eventCh (trigger s))) = true)
    by (apply Z.ltb_lt; lia).
  assert (Hroom2 : (Z.of_nat 0 <? cap (sendCh (trigger s))) = true)
    by (apply Z.ltb_lt; lia).
  subst r.
  destruct (retrySendEvent (config (trigger s)) cl c (Event ev) now)
    as [[err n] tr] eqn:Hr.
  destruct (decide (filter (trigger s) (Event ev) = FailFilter)) as [Hfail|Hpass].
  - eexists. split.
    + simpl. unfold arrive_enqueue, chan_send. rewrite He1, He2. simpl.
      rewrite Hroom1. simpl.
      unfold arrive_receive. simpl. rewrite Ha. simpl.
      unfold filter_take, chan_recv. simpl. rewrite Hi. simpl.
      unfold filter_eval. simpl.
      rewrite list_lookup_insert_eq by done.
      rewrite decide_True by done. simpl. reflexivity.
    + simpl. rewrite list_insert_insert_eq, list_lookup_insert_eq by done.
      rewrite <- !app_assoc. by split_and!.
  - eexists. split.
    + simpl. unfold arrive_enqueue, chan_send. rewrite He1, He2. simpl.
      rewrite Hroom1. simpl.
      unfold arrive_receive. simpl. rewrite Ha. simpl.
      unfold filter_take, chan_recv. simpl. rewrite Hi. simpl.
      unfold filter_eval. simpl.
      rewrite list_lookup_insert_eq by done.
      rewrite decide_False by done. simpl.
      unfold filter_forward, chan_send. simpl.
      rewrite list_insert_insert_eq, list_lookup_insert_eq by done.
      rewrite Hs1, Hs2. simpl. rewrite Hroom2. simpl.
      unfold send_take, chan_recv. simpl. rewrite Hj. simpl.
      unfold send_retry. simpl.
      rewrite list_lookup_insert_eq by done.
      change (scope_ctx _ kj c now) with (scope_ctx s kj c now).
      rewrite Hctx, Hcl. simpl. rewrite Hr. simpl.
      unfold send_commit. simpl.
      rewrite list_insert_insert_eq, list_lookup_insert_eq by done.
      simpl. reflexivity.
    + simpl. rewrite !list_insert_insert_eq, !list_lookup_insert_eq by done.
      unfold commit_after_retry. rewrite <- !app_assoc. by split_and!.
Qed.

Lemma delivery_end_to_end_witness :
  ∃ s', hist s' = [ObsEnqueue ev1; ObsReceive 1;
                   ObsSend 1 (WithTimeout Background 7 1) "a";
                   ObsDebug "send ce event success" 1;
                   ObsCommit 1 SendSuccess] ∧
        sendWorkers s' !! 0%nat = Some (0%nat, SIdle).
Proof.
  destruct (delivery_end_to_end started_sys 0 0 0 0 ev1 1 Background acking)
    as (s' & _ & H2 & _ & H4 & _).
  - unfold ready. vm_compute. split_and!; reflexivity.
  - reflexivity.
  - reflexivity.
  - reflexivity.
  - reflexivity.
  - exists s'. split; [|exact H4]. rewrite H2. vm_compute. reflexivity.
Defined.
